(** * Co-mention network dashboard: graph builder, interaction layer,
      incremental loader and on-demand detail cache.

    Shallow embedding of the algorithmic core of
    [NetworkGraph] (src/unnamed/part_006) and of the loading / caching
    code of [NameMentionChart] (src/unnamed/part_007).

    Conventions.
    - Identifiers are JavaScript strings: [string].
    - Counts (mentions, co-occurrences, thresholds) are integers: [Z].
    - The node radius and the link opacities are modelled in exact real
      arithmetic [R].
    - The viewBox is modelled with JavaScript numbers as they are:
      binary64, the primitive [float] of the Standard Library, with
      every product, quotient, sum and difference rounded to nearest.
    - A JavaScript [Map] is a [gmap]; a [Set] whose iteration order is
      observable is a duplicate-free list in insertion order; a [Set]
      only tested for membership is a [gset].
    - The d3-force simulation only assigns coordinates to the nodes it is
      given; it neither adds nor removes nodes or links, so coordinates
      are left out of the records. *)

From Stdlib Require Import Reals Lra.
From Stdlib Require Floats.
From stdpp Require Import gmap strings list fin_maps sorting.

(* Decimal literals such as 1.06 denote the nearest binary64 number, as
   they do in JavaScript. *)
Set Warnings "-inexact-float".

Local Open Scope Z_scope.

(* ================================================================== *)
(** * Graph builder *)
(* ================================================================== *)

Module Graph.

(** Rows of the materialized view [entity_mention_counts]
    (fields used by the graph). *)
Record EntityMentionCount := {
  entity_id : string;
  canonical_name : string;
  total_mentions : Z;
  sections : list string;
}.

(** Rows returned by the [get_co_mentions] RPC. *)
Record CoMention := {
  entity_a_id : string;
  entity_a_name : string;
  entity_b_id : string;
  entity_b_name : string;
  co_occurrence_count : Z;
  shared_documents : Z;
}.

Record GraphNode := {
  node_id : string;
  node_name : string;
  mentions : Z;
  radius : R;
  color : string;
  showLabel : bool;
}.

Record GraphLink := {
  sourceId : string;
  targetId : string;
  coOccurrences : Z;
  sharedDocs : Z;
}.

Record BuiltGraph := {
  nodes : list GraphNode;
  links : list GraphLink;
}.

Definition empty_graph : BuiltGraph := {| nodes := []; links := [] |}.

Definition SECTION_COLORS : list (string * string) :=
  [("court", "#D4A843"); ("doj", "#4a8bc2"); ("foia", "#5b8a72");
   ("house", "#7c6e9b"); ("fbi", "#c25d4a")]%string.

(** [String.prototype.toLowerCase], on ASCII letters. *)
Definition lower_ascii (c : Ascii.ascii) : Ascii.ascii :=
  let n := Ascii.nat_of_ascii c in
  if (65 <=? n)%nat && (n <=? 90)%nat then Ascii.ascii_of_nat (n + 32) else c.

Fixpoint toLowerCase (s : string) : string :=
  match s with
  | EmptyString => EmptyString
  | String c s' => String (lower_ascii c) (toLowerCase s')
  end.

(** [s.includes(key)] *)
Fixpoint includes (s key : string) : bool :=
  String.prefix key s ||
  match s with
  | EmptyString => false
  | String _ s' => includes s' key
  end.

(** Colour of the first section label that contains a known key. *)
Fixpoint getNodeColor (secs : list string) : string :=
  match secs with
  | [] => "#8892a4"
  | sec :: rest =>
      match List.find (fun kc => includes (toLowerCase sec) (fst kc))
                      SECTION_COLORS with
      | Some kc => snd kc
      | None => getNodeColor rest
      end
  end.

(** [for (const e of rawEntities) entityMap.set(e.entity_id, e)] *)
Definition mk_entityMap (rawEntities : list EntityMentionCount)
  : gmap string EntityMentionCount :=
  foldl (fun m e => <[entity_id e := e]> m) ∅ rawEntities.

(** [Set.prototype.add] on an insertion-ordered set. *)
Definition set_add (x : string) (s : list string) : list string :=
  if decide (x ∈ s) then s else s ++ [x].

(** [e && e.total_mentions >= minMentions] for [e = entityMap.get(i)]. *)
Definition meets (entityMap : gmap string EntityMentionCount)
    (minMentions : Z) (i : string) : bool :=
  match entityMap !! i with
  | Some e => bool_decide (minMentions ≤ total_mentions e)
  | None => false
  end.

(** Body of the loop that collects node identifiers from the pairs. *)
Definition collect_step (entityMap : gmap string EntityMentionCount)
    (minMentions : Z) (s : list string) (cm : CoMention) : list string :=
  let s1 := if meets entityMap minMentions (entity_a_id cm)
            then set_add (entity_a_id cm) s else s in
  if meets entityMap minMentions (entity_b_id cm)
  then set_add (entity_b_id cm) s1 else s1.

Definition collect_nodeIds (entityMap : gmap string EntityMentionCount)
    (minMentions : Z) (rawCoMentions : list CoMention) : list string :=
  foldl (collect_step entityMap minMentions) [] rawCoMentions.

(** [entityMap.get(id)?.total_mentions || 0] *)
Definition mentions_or_0 (entityMap : gmap string EntityMentionCount)
    (i : string) : Z :=
  match entityMap !! i with
  | Some e => total_mentions e
  | None => 0
  end.

(** [Math.max(...xs, 1)] *)
Definition max_with_1 (xs : list Z) : Z := foldr Z.max 1 xs.

Definition compute_maxMentions (entityMap : gmap string EntityMentionCount)
    (nodeIds : list string) : Z :=
  max_with_1 (mentions_or_0 entityMap <$> nodeIds).

(** [Math.log2] on reals. *)
Definition log2 (x : R) : R := (ln x / ln 2)%R.

(** [5 + (Math.log2(m + 1) / maxLog) * 18] with
    [maxLog = Math.log2(maxMentions + 1)]. *)
Definition node_radius (maxMentions m : Z) : R :=
  (5 + (log2 (IZR (m + 1)) / log2 (IZR (maxMentions + 1))) * 18)%R.

Definition mk_node (maxMentions : Z) (i : string) (ent : EntityMentionCount)
  : GraphNode :=
  {| node_id := i;
     node_name := canonical_name ent;
     mentions := total_mentions ent;
     radius := node_radius maxMentions (total_mentions ent);
     color := getNodeColor (sections ent);
     showLabel := bool_decide (50 ≤ total_mentions ent) |}.

(** The loop [for (const id of nodeIds)], skipping identifiers that the
    entity map does not know. *)
Definition mk_graphNodes (entityMap : gmap string EntityMentionCount)
    (maxMentions : Z) (nodeIds : list string) : list GraphNode :=
  omap (fun i => mk_node maxMentions i <$> entityMap !! i) nodeIds.

Definition mk_link (cm : CoMention) : GraphLink :=
  {| sourceId := entity_a_id cm;
     targetId := entity_b_id cm;
     coOccurrences := co_occurrence_count cm;
     sharedDocs := shared_documents cm |}.

(** [rawCoMentions.filter(both ends in nodeIds).slice(0, 500).map(...)] *)
Definition mk_graphLinks (nodeIds : list string)
    (rawCoMentions : list CoMention) : list GraphLink :=
  mk_link <$>
    take 500
      (filter (fun cm => entity_a_id cm ∈ nodeIds ∧ entity_b_id cm ∈ nodeIds)
              rawCoMentions).

(** The [useMemo] that builds [{nodes, links}]. *)
Definition build_graph (rawEntities : list EntityMentionCount)
    (rawCoMentions : list CoMention) (minMentions : Z) : BuiltGraph :=
  if decide (length rawEntities = 0%nat) then empty_graph
  else
    let entityMap := mk_entityMap rawEntities in
    let nodeIds := collect_nodeIds entityMap minMentions rawCoMentions in
    let maxMentions := compute_maxMentions entityMap nodeIds in
    let graphNodes := mk_graphNodes entityMap maxMentions nodeIds in
    let graphLinks := mk_graphLinks nodeIds rawCoMentions in
    if decide (length graphNodes = 0%nat) then empty_graph
    else {| nodes := graphNodes; links := graphLinks |}.

Definition node_ids (g : BuiltGraph) : list string := node_id <$> nodes g.

(** A link joins the unordered pair [{a, b}]. *)
Definition joins (a b : string) (x y : string) : bool :=
  bool_decide (x = a ∧ y = b) || bool_decide (x = b ∧ y = a).

Definition pair_edges (a b : string) (g : BuiltGraph) : nat :=
  length (filter (fun l => joins a b (sourceId l) (targetId l) = true) (links g)).

Definition pair_rows (a b : string) (raw : list CoMention) : nat :=
  length (filter (fun cm => joins a b (entity_a_id cm) (entity_b_id cm) = true) raw).

(** Number of built links incident to a node identifier. *)
Definition degree (i : string) (g : BuiltGraph) : nat :=
  length (filter (fun l => sourceId l = i ∨ targetId l = i) (links g)).

(** Sample rows. *)
Definition ent (i : string) (m : Z) : EntityMentionCount :=
  {| entity_id := i; canonical_name := i; total_mentions := m;
     sections := [] |}.

Definition pair (a b : string) (co shared : Z) : CoMention :=
  {| entity_a_id := a; entity_a_name := a;
     entity_b_id := b; entity_b_name := b;
     co_occurrence_count := co; shared_documents := shared |}.

End Graph.

(* ================================================================== *)
(** * Aggregate data gateway *)
(* ================================================================== *)

Module Gateway.

Import Graph.

(** Order of significance used by the backend when it bounds the result. *)
Definition more_significant (p q : CoMention) : Prop :=
  co_occurrence_count q ≤ co_occurrence_count p.

#[global] Instance more_significant_dec p q : Decision (more_significant p q).
Proof. unfold more_significant. apply _. Defined.

(** Modelled from the spec: the [get_co_mentions] remote procedure is a
    backend function that is not part of the client sources.  The gateway
    contract is "list co-occurrence pairs: minimum co-occurrence count,
    limit -> pairs with counts", bounded to the most significant pairs
    ordered by co-occurrence count. *)
Definition get_co_mentions (min_co_occurrences : Z) (result_limit : nat)
    (rows : list CoMention) : list CoMention :=
  take result_limit
    (merge_sort more_significant
       (filter (fun cm => min_co_occurrences ≤ co_occurrence_count cm) rows)).

(** [getCoMentions({ minCoOccurrences = 3, limit = 50 })] over a backend
    table [rows]. *)
Definition getCoMentions (minCoOccurrences : option Z) (limit : option nat)
    (rows : list CoMention) : list CoMention :=
  get_co_mentions (default 3 minCoOccurrences) (default 50%nat limit) rows.

(** The snapshot shown for thresholds [minMentions], [minCoOccurrences]:
    the fetch effect asks for at most 500 pairs above the debounced
    co-occurrence threshold, then the graph is built from them. *)
Definition snapshot (rawEntities : list EntityMentionCount)
    (rows : list CoMention) (minMentions minCoOccurrences : Z) : BuiltGraph :=
  build_graph rawEntities
    (getCoMentions (Some minCoOccurrences) (Some 500%nat) rows) minMentions.

End Gateway.

(* ================================================================== *)
(** * Node click: single click selects, double click navigates *)
(* ================================================================== *)

Module Click.

(** A timer registered with [setTimeout]: the node captured by the
    callback and the delay in milliseconds. *)
Record Timer := { t_node : string; t_delay : Z }.

(** Observable effects; the timer handle that caused the effect is kept
    as a ghost annotation. *)
Inductive Effect :=
  | Navigate (nodeId : string) (handle : positive)   (* router.push *)
  | Toggle (nodeId : string) (handle : positive).    (* setSelectedNode *)

Definition effect_handle (e : Effect) : positive :=
  match e with Navigate _ h | Toggle _ h => h end.

Record State := {
  selectedNode : option string;
  clickTimeouts : gmap string positive;  (* the ref-held Map *)
  timers : gmap positive Timer;          (* pending browser timers *)
  next_handle : positive;                (* next handle setTimeout returns *)
  log : list Effect;
}.

Definition init : State :=
  {| selectedNode := None; clickTimeouts := ∅; timers := ∅;
     next_handle := 1%positive; log := [] |}.

(** [prev === nodeId ? null : nodeId] *)
Definition toggle (nodeId : string) (prev : option string) : option string :=
  if decide (prev = Some nodeId) then None else Some nodeId.

Definition handleNodeClick (nodeId : string) (s : State) : State :=
  match clickTimeouts s !! nodeId with
  | Some existing =>
      {| selectedNode := selectedNode s;
         clickTimeouts := delete nodeId (clickTimeouts s);
         timers := delete existing (timers s);          (* clearTimeout *)
         next_handle := next_handle s;
         log := log s ++ [Navigate nodeId existing] |}
  | None =>
      let timeout := next_handle s in
      {| selectedNode := selectedNode s;
         clickTimeouts := <[nodeId := timeout]> (clickTimeouts s);
         timers := <[timeout := {| t_node := nodeId; t_delay := 300 |}]> (timers s);
         next_handle := (next_handle s + 1)%positive;
         log := log s |}
  end.

(** The event loop runs the callback of timer [h]; a timer that was
    cleared, or that already ran, runs nothing. *)
Definition timer_fires (h : positive) (s : State) : State :=
  match timers s !! h with
  | Some t =>
      {| selectedNode := toggle (t_node t) (selectedNode s);
         clickTimeouts := delete (t_node t) (clickTimeouts s);
         timers := delete h (timers s);
         next_handle := next_handle s;
         log := log s ++ [Toggle (t_node t) h] |}
  | None => s
  end.

(** The selection part of [resetView]: [setSelectedNode(null)]. *)
Definition resetView (s : State) : State :=
  {| selectedNode := None; clickTimeouts := clickTimeouts s;
     timers := timers s; next_handle := next_handle s; log := log s |}.

Inductive Event :=
  | EClick (nodeId : string)
  | EFire (h : positive)
  | EReset.

Definition step (s : State) (e : Event) : State :=
  match e with
  | EClick n => handleNodeClick n s
  | EFire h => timer_fires h s
  | EReset => resetView s
  end.

Definition run (evs : list Event) (s : State) : State := foldl step s evs.

Definition is_navigate (e : Effect) : bool :=
  match e with Navigate _ _ => true | Toggle _ _ => false end.

Definition navigations (s : State) : list Effect :=
  filter (fun e => Is_true (is_navigate e)) (log s).

Definition toggles (s : State) : list Effect :=
  filter (fun e => ¬ Is_true (is_navigate e)) (log s).

(** Events that concern neither node [n] nor timer [h]. *)
Definition foreign (n : string) (h : positive) (e : Event) : Prop :=
  match e with
  | EClick m => m ≠ n
  | EFire k => k ≠ h
  | EReset => True
  end.

(** Node [n] has a pending single click, held by timer [h]. *)
Definition pending_click (n : string) (h : positive) (s : State) : Prop :=
  clickTimeouts s !! n = Some h ∧
  timers s !! h = Some {| t_node := n; t_delay := 300 |}.

(** The ref-held map and the browser's pending timers describe the same
    pending single clicks, and handles are never reused. *)
Record wf (s : State) : Prop := {
  wf_map : ∀ n h, clickTimeouts s !! n = Some h →
                  ∃ t, timers s !! h = Some t ∧ t_node t = n;
  wf_timer : ∀ h t, timers s !! h = Some t →
                    clickTimeouts s !! t_node t = Some h;
  wf_fresh : ∀ h, is_Some (timers s !! h) → (h < next_handle s)%positive;
  wf_log : ∀ e, e ∈ log s →
             (effect_handle e < next_handle s)%positive ∧
             timers s !! effect_handle e = None;
  wf_once : NoDup (effect_handle <$> log s);
}.

End Click.

(* ================================================================== *)
(** * Incremental loader: discarding superseded responses *)
(* ================================================================== *)

Module Loader.

Import Graph.

(** ** [NetworkGraph]: one [cancelled] flag per run of the fetch effect *)

Record State := {
  rawCoMentions : list CoMention;
  rawEntities : list EntityMentionCount;
  loading : bool;
  cancelled : gmap nat bool;   (* the closure variable of each effect run *)
  runs : nat;                  (* number of effect runs so far *)
}.

Definition init : State :=
  {| rawCoMentions := []; rawEntities := []; loading := true;
     cancelled := ∅; runs := 0%nat |}.

(** Cleanup of the previous effect run: [cancelled = true]. *)
Definition cleanup (s : State) : gmap nat bool :=
  match cancelled s !! runs s with
  | Some _ => <[runs s := true]> (cancelled s)
  | None => cancelled s
  end.

(** [debouncedMinCo] changed (or first mount): the previous run is
    cleaned up, then the effect runs again and issues a new request,
    whose generation number is returned. *)
Definition run_effect (s : State) : State * nat :=
  let g := S (runs s) in
  ({| rawCoMentions := rawCoMentions s;
      rawEntities := rawEntities s;
      loading := true;
      cancelled := <[g := false]> (cleanup s);
      runs := g |}, g).

Definition is_cancelled (s : State) (g : nat) : bool :=
  default true (cancelled s !! g).

(** The request of run [g] resolves with [(cm, ents)]:
    [.then(...)] followed by [.finally(...)]. *)
Definition resolve (g : nat) (cm : list CoMention)
    (ents : list EntityMentionCount) (s : State) : State :=
  if is_cancelled s g then s
  else {| rawCoMentions := cm; rawEntities := ents; loading := false;
          cancelled := cancelled s; runs := runs s |}.

(** The request of run [g] fails: [.catch(console.error)] followed by
    [.finally(...)]. *)
Definition reject (g : nat) (s : State) : State :=
  if is_cancelled s g then s
  else {| rawCoMentions := rawCoMentions s; rawEntities := rawEntities s;
          loading := false; cancelled := cancelled s; runs := runs s |}.

(** States the component can be in: effect runs and settlements of any
    request, in any order. *)
Inductive reachable : State → Prop :=
  | ld_init : reachable init
  | ld_run s : reachable s → reachable (run_effect s).1
  | ld_resolve g cm ents s : reachable s → reachable (resolve g cm ents s)
  | ld_reject g s : reachable s → reachable (reject g s).

(** Only the latest run is live. *)
Definition only_latest_live (s : State) : Prop :=
  (∀ g, g ≠ runs s → is_cancelled s g = true) ∧
  ((1 ≤ runs s)%nat → is_cancelled s (runs s) = false).

(** ** [NameMentionChart.fetchData]: a version counter held in a ref *)

Record ChartState := {
  entities : list EntityMentionCount;
  totalCount : Z;
  hasMore : bool;
  chart_loading : bool;
  filterVersion : nat;          (* filterVersionRef.current *)
}.

Definition chart_init : ChartState :=
  {| entities := []; totalCount := 0; hasMore := true;
     chart_loading := true; filterVersion := 0%nat |}.

(** The synchronous prefix of [fetchData]; returns the captured [v]. *)
Definition fetchData_start (s : ChartState) : ChartState * nat :=
  let v := S (filterVersion s) in
  ({| entities := entities s; totalCount := totalCount s;
      hasMore := true; chart_loading := true; filterVersion := v |}, v).

(** Continuation of [fetchData] after a successful [await]. *)
Definition fetchData_resolve (v : nat) (data : list EntityMentionCount)
    (count : Z) (s : ChartState) : ChartState :=
  if decide (filterVersion s ≠ v) then s
  else {| entities := data; totalCount := count;
          hasMore := bool_decide (Z.of_nat (length data) < count);
          chart_loading := false; filterVersion := filterVersion s |}.

(** Continuation of [fetchData] when the [await] throws. *)
Definition fetchData_reject (v : nat) (s : ChartState) : ChartState :=
  if decide (filterVersion s = v)
  then {| entities := entities s; totalCount := totalCount s;
          hasMore := hasMore s; chart_loading := false;
          filterVersion := filterVersion s |}
  else s.

(** States the chart can be in, with the versions that calls of
    [fetchData] have captured so far, latest first (ghost): [fetchData]
    is called, and requests it issued settle, in any order.  Other code
    of the component ([loadMore], which only reads the ref) may change
    the stored rows and flags in between, but never the ref. *)
Inductive chart_reachable : ChartState → list nat → Prop :=
  | ch_init : chart_reachable chart_init []
  | ch_start c vs :
      chart_reachable c vs →
      chart_reachable (fetchData_start c).1 ((fetchData_start c).2 :: vs)
  | ch_resolve v data count c vs :
      chart_reachable c vs → v ∈ vs →
      chart_reachable (fetchData_resolve v data count c) vs
  | ch_reject v c vs :
      chart_reachable c vs → v ∈ vs →
      chart_reachable (fetchData_reject v c) vs
  | ch_other c c' vs :
      chart_reachable c vs → filterVersion c' = filterVersion c →
      chart_reachable c' vs.

End Loader.

(* ================================================================== *)
(** * On-demand detail cache (section breakdowns) *)
(* ================================================================== *)

Module DetailCache.

Record SectionBreakdown := { section : string; mention_count : Z }.

(** Which piece of code issued a fetch: the visible-window effect or the
    row hover handler.  Their completion handlers are written
    differently in the source. *)
Inductive Origin := Visible | Hover.

#[global] Instance Origin_eq_dec : EqDecision Origin.
Proof. solve_decision. Defined.

Record State := {
  breakdownCache : gmap string (list SectionBreakdown);
  pending : gset string;
  (* ghost: calls of getEntitySectionBreakdown that have not settled *)
  inflight : list (Origin * string);
  (* ghost: every call of getEntitySectionBreakdown so far, in order *)
  fetches : list string;
}.

Definition init : State :=
  {| breakdownCache := ∅; pending := ∅; inflight := []; fetches := [] |}.

(** [!breakdownCacheRef.current.has(id) && !pendingRef.current.has(id)] *)
Definition needs_fetch (s : State) (i : string) : Prop :=
  breakdownCache s !! i = None ∧ i ∉ pending s.

#[global] Instance needs_fetch_dec s i : Decision (needs_fetch s i).
Proof. unfold needs_fetch. apply _. Defined.

(** The fetch part of [handleRowMouseEnter]. *)
Definition handleRowMouseEnter (i : string) (s : State) : State :=
  if decide (needs_fetch s i) then
    {| breakdownCache := breakdownCache s;
       pending := {[i]} ∪ pending s;
       inflight := inflight s ++ [(Hover, i)];
       fetches := fetches s ++ [i] |}
  else s.

(** The effect on [debouncedVisibleIds]. *)
Definition prefetch_visible (debouncedVisibleIds : list string) (s : State)
  : State :=
  if decide (length debouncedVisibleIds = 0%nat) then s
  else
    let uncached := filter (needs_fetch s) debouncedVisibleIds in
    if decide (length uncached = 0%nat) then s
    else
      {| breakdownCache := breakdownCache s;
         pending := list_to_set uncached ∪ pending s;
         inflight := inflight s ++ ((fun i => (Visible, i)) <$> uncached);
         fetches := fetches s ++ uncached |}.

Fixpoint remove_first (f : Origin * string) (l : list (Origin * string))
  : list (Origin * string) :=
  match l with
  | [] => []
  | g :: l' => if decide (f = g) then l' else g :: remove_first f l'
  end.

(** Visible-window fetch settles:
    [.then(data => cache.set(id, data)).finally(() => pending.delete(id))]. *)
Definition settle_visible (i : string) (r : option (list SectionBreakdown))
    (s : State) : State :=
  let cache' := match r with
                | Some data => <[i := data]> (breakdownCache s)
                | None => breakdownCache s
                end in
  {| breakdownCache := cache';
     pending := pending s ∖ {[i]};
     inflight := remove_first (Visible, i) (inflight s);
     fetches := fetches s |}.

(** Hover fetch settles:
    [.then(data => { cache.set(id, data); pending.delete(id); ... })
     .catch(() => { pending.delete(id) })]. *)
Definition settle_hover (i : string) (r : option (list SectionBreakdown))
    (s : State) : State :=
  match r with
  | Some data =>
      {| breakdownCache := <[i := data]> (breakdownCache s);
         pending := pending s ∖ {[i]};
         inflight := remove_first (Hover, i) (inflight s);
         fetches := fetches s |}
  | None =>
      {| breakdownCache := breakdownCache s;
         pending := pending s ∖ {[i]};
         inflight := remove_first (Hover, i) (inflight s);
         fetches := fetches s |}
  end.

Definition settle (o : Origin) (i : string)
    (r : option (list SectionBreakdown)) (s : State) : State :=
  match o with
  | Visible => settle_visible i r s
  | Hover => settle_hover i r s
  end.

(** A request for the breakdown of a node, from either entry point. *)
Inductive Request :=
  | RHover (i : string)
  | RVisible (ids : list string).

Definition request (r : Request) (s : State) : State :=
  match r with
  | RHover i => handleRowMouseEnter i s
  | RVisible ids => prefetch_visible ids s
  end.


(** How many times [r] lists node [i]. *)
Definition occurrences (i : string) (r : Request) : nat :=
  match r with
  | RHover j => if decide (j = i) then 1%nat else 0%nat
  | RVisible ids => length (filter (fun j => j = i) ids)
  end.

(** [r] lists no identifier twice. *)
Definition lists_once (r : Request) : Prop :=
  match r with
  | RHover _ => True
  | RVisible ids => NoDup ids
  end.

(** Number of underlying fetches issued for [i]. *)
Definition fetch_count (i : string) (s : State) : nat :=
  length (filter (fun j => j = i) (fetches s)).

(** States reachable through requests that satisfy [P] and settlements
    of in-flight fetches. *)
Inductive reachable_by (P : Request → Prop) : State → Prop :=
  | reach_init : reachable_by P init
  | reach_request r s :
      reachable_by P s → P r → reachable_by P (request r s)
  | reach_settle o i r s :
      reachable_by P s → (o, i) ∈ inflight s →
      reachable_by P (settle o i r s).

(** Every state of the cache: any hover and any visible window. *)
Definition reachable : State → Prop := reachable_by (fun _ => True).

(** What can happen to the cache; only a fetch that is in flight can
    settle. *)
Inductive Event :=
  | EvRequest (r : Request)
  | EvSettle (o : Origin) (i : string) (res : option (list SectionBreakdown)).

Definition step (s : State) (e : Event) : State :=
  match e with
  | EvRequest r => request r s
  | EvSettle o i res =>
      if decide ((o, i) ∈ inflight s) then settle o i res s else s
  end.

Definition run (evs : list Event) (s : State) : State := foldl step s evs.

(** Bookkeeping invariant of the states reached through requests that
    list no identifier twice: the pending set names exactly the in-flight
    fetches, no identifier is in flight twice, and nothing in flight is
    cached. *)
Record inv (s : State) : Prop := {
  inv_pending : ∀ i, i ∈ pending s ↔ ∃ o, (o, i) ∈ inflight s;
  inv_once : NoDup (snd <$> inflight s);
  inv_uncached : ∀ i, i ∈ pending s → breakdownCache s !! i = None;
}.

End DetailCache.

(* ================================================================== *)
(** * JavaScript numbers *)
(* ================================================================== *)

Module Binary64.

Import Stdlib.Floats.PrimFloat Stdlib.Floats.SpecFloat Stdlib.Floats.FloatOps.

Local Open Scope float_scope.

(** [Math.max(a, b)]: NaN if either argument is NaN; [+0] is larger
    than [-0]. *)
Definition Math_max (a b : float) : float :=
  if is_nan a || is_nan b then nan
  else if a <? b then b
  else if b <? a then a
  else if get_sign a then b else a.

(** [Math.min(a, b)]: NaN if either argument is NaN; [-0] is smaller
    than [+0]. *)
Definition Math_min (a b : float) : float :=
  if is_nan a || is_nan b then nan
  else if a <? b then a
  else if b <? a then b
  else if get_sign a then a else b.


(** The real number that a finite binary64 number stands for; zeros,
    infinities and NaN are sent to 0. *)
Definition value (a : float) : R :=
  match Prim2SF a with
  | S754_finite s m e =>
      ((if s then - IZR (Zpos m) else IZR (Zpos m)) * powerRZ 2 e)%R
  | _ => 0%R
  end.



End Binary64.

(* ================================================================== *)
(** * Viewport: zoom, pan, reset *)
(* ================================================================== *)

Module Viewport.

Import Stdlib.Floats.PrimFloat.
Import Binary64.

Local Open Scope float_scope.

Definition VBOX_W : float := 1000.
Definition VBOX_H : float := 600.

Record ViewBox := { x : float; y : float; w : float; h : float }.

(** [getBoundingClientRect()] of the svg element. *)
Record Rect := { left : float; top : float; width : float; height : float }.

Record State := {
  viewBox : ViewBox;
  isPanning : bool;
  lastMouse : float * float;
}.

Definition initial_viewBox : ViewBox :=
  {| x := 0; y := 0; w := VBOX_W; h := VBOX_H |}.

Definition init : State :=
  {| viewBox := initial_viewBox; isPanning := false; lastMouse := (0, 0) |}.

(** [e.deltaY > 0 ? 1.06 : 0.94] *)
Definition zoom_factor (deltaY : float) : float :=
  if 0 <? deltaY then 1.06 else 0.94.

(** The updater passed to [setViewBox] by the wheel handler. *)
Definition wheel_viewBox (clientX clientY deltaY : float) (rect : Rect)
    (prev : ViewBox) : ViewBox :=
  let mx := x prev + ((clientX - left rect) / width rect) * w prev in
  let my := y prev + ((clientY - top rect) / height rect) * h prev in
  let factor := zoom_factor deltaY in
  let newW := Math_max 200 (Math_min (VBOX_W * 4) (w prev * factor)) in
  let newH := Math_max 120 (Math_min (VBOX_H * 4) (h prev * factor)) in
  {| x := mx - (mx - x prev) * (newW / w prev);
     y := my - (my - y prev) * (newH / h prev);
     w := newW;
     h := newH |}.

Definition handleWheel (clientX clientY deltaY : float) (rect : Rect)
    (s : State) : State :=
  {| viewBox := wheel_viewBox clientX clientY deltaY rect (viewBox s);
     isPanning := isPanning s; lastMouse := lastMouse s |}.

(** [button]: the mouse button; [tag]: tag name of the event target. *)
Definition handleMouseDown (button : Z) (tag : string)
    (clientX clientY : float) (s : State) : State :=
  if decide (button ≠ 0%Z) then s
  else if decide (tag = "circle"%string ∨ tag = "text"%string) then s
  else {| viewBox := viewBox s; isPanning := true;
          lastMouse := (clientX, clientY) |}.

Definition handleMouseMove (clientX clientY : float) (rect : Rect)
    (s : State) : State :=
  if isPanning s then
    let dx := (clientX - fst (lastMouse s)) * (w (viewBox s) / width rect) in
    let dy := (clientY - snd (lastMouse s)) * (h (viewBox s) / height rect) in
    {| viewBox := {| x := x (viewBox s) - dx; y := y (viewBox s) - dy;
                     w := w (viewBox s); h := h (viewBox s) |};
       isPanning := true;
       lastMouse := (clientX, clientY) |}
  else s.

Definition handleMouseUp (s : State) : State :=
  {| viewBox := viewBox s; isPanning := false; lastMouse := lastMouse s |}.

(** The viewport part of [resetView] (it also clears the selection). *)
Definition resetView (s : State) : State :=
  {| viewBox := initial_viewBox; isPanning := isPanning s;
     lastMouse := lastMouse s |}.

Inductive Event :=
  | EvWheel (clientX clientY deltaY : float) (rect : Rect)
  | EvMouseDown (button : Z) (tag : string) (clientX clientY : float)
  | EvMouseMove (clientX clientY : float) (rect : Rect)
  | EvMouseUp
  | EvReset.

Definition step (s : State) (e : Event) : State :=
  match e with
  | EvWheel cx cy dy rect => handleWheel cx cy dy rect s
  | EvMouseDown b tag cx cy => handleMouseDown b tag cx cy s
  | EvMouseMove cx cy rect => handleMouseMove cx cy rect s
  | EvMouseUp => handleMouseUp s
  | EvReset => resetView s
  end.

Definition run (evs : list Event) (s : State) : State := foldl step s evs.

(** Wheel events handled since the initial state or the last reset. *)
Definition wheels_after (e : Event) (n : nat) : nat :=
  match e with
  | EvWheel _ _ _ _ => S n
  | EvReset => 0%nat
  | _ => n
  end.

(** [reachable n s]: the events handled so far lead from the initial
    state to [s], and [n] of them were wheel events that came after the
    last reset. *)
Inductive reachable : nat → State → Prop :=
  | vp_reach_init : reachable 0 init
  | vp_reach_step n s e :
      reachable n s → reachable (wheels_after e n) (step s e).




End Viewport.

(* ================================================================== *)
(** * Highlighting of the active node and its neighbours *)
(* ================================================================== *)

Module Highlight.

Import Graph.

(** Truthiness of a [string | null]: [null] and the empty string are
    falsy. *)
Definition truthy (o : option string) : bool :=
  match o with
  | Some s => negb (bool_decide (s = EmptyString))
  | None => false
  end.

(** [selectedNode || hoveredNode] *)
Definition activeId (selectedNode hoveredNode : option string)
  : option string :=
  if truthy selectedNode then selectedNode else hoveredNode.

(** Body of the loop that collects the neighbours of [a]. *)
Definition connect_step (a : string) (set : gset string) (l : GraphLink)
  : gset string :=
  let s1 := if decide (sourceId l = a) then {[targetId l]} ∪ set else set in
  if decide (targetId l = a) then {[sourceId l]} ∪ s1 else s1.

(** The [useMemo] computing [connectedIds]. *)
Definition connectedIds (active : option string) (links : list GraphLink)
  : gset string :=
  match active with
  | Some a => if truthy active then foldl (connect_step a) ∅ links else ∅
  | None => ∅
  end.

(** One link joins the active node [a] to [j]. *)
Definition neighbour_via (a j : string) (l : GraphLink) : Prop :=
  (sourceId l = a ∧ targetId l = j) ∨ (targetId l = a ∧ sourceId l = j).

(** [link.sourceId === activeId || link.targetId === activeId] *)
Definition incident (active : option string) (l : GraphLink) : bool :=
  bool_decide (Some (sourceId l) = active)
  || bool_decide (Some (targetId l) = active).

Definition getNodeOpacity (active : option string) (links : list GraphLink)
    (i : string) : R :=
  if negb (truthy active) then 1%R
  else if bool_decide (Some i = active)
          || bool_decide (i ∈ connectedIds active links)
       then 1%R
       else 0.12%R.

(** [Math.max(...links.map(l => l.sharedDocs), 1)] *)
Definition maxShared (links : list GraphLink) : Z :=
  max_with_1 (sharedDocs <$> links).

(** [Math.max(...links.map(l => l.coOccurrences), 1)] *)
Definition maxCo (links : list GraphLink) : Z :=
  max_with_1 (coOccurrences <$> links).

Definition getLinkOpacity (active : option string) (links : list GraphLink)
    (link : GraphLink) : R :=
  let base := (0.2 + (IZR (sharedDocs link) / IZR (maxShared links)) * 0.5)%R in
  if negb (truthy active) then base
  else if incident active link then 0.8%R
  else 0.04%R.

Definition getLinkColor (active : option string) (link : GraphLink)
  : string :=
  if negb (truthy active) then "#2a3a4e"
  else if incident active link then "#D4A843"
  else "#1a2535".

(** [1 + (link.coOccurrences / maxCo) * 4] *)
Definition thickness (links : list GraphLink) (link : GraphLink) : R :=
  (1 + (IZR (coOccurrences link) / IZR (maxCo links)) * 4)%R.

(** Stroke width of the transparent hit target:
    [Math.max(thickness + 8, 12)]. *)
Definition hit_width (links : list GraphLink) (link : GraphLink) : R :=
  Rmax (thickness links link + 8) 12.

(** Label text of a node, on UTF-16 code units:
    [name.length > 20 ? name.slice(0, 18) + "\u2026" : name]. *)
Definition node_label {U : Type} (ellipsis : U) (name : list U) : list U :=
  if decide (20 < length name)%nat then take 18 name ++ [ellipsis] else name.

(** Row name of the doc-type chart:
    [name.length > 16 ? name.slice(0, 14) + "\u2026" : name]. *)
Definition row_label {U : Type} (ellipsis : U) (name : list U) : list U :=
  if decide (16 < length name)%nat then take 14 name ++ [ellipsis] else name.

End Highlight.

(* ================================================================== *)
(** * Section labels of the entity chart *)
(* ================================================================== *)

Module Sections.

Import Stdlib.Strings.Ascii.
Import Graph.

(** [s] with the prefix [p] removed, when [s] starts with [p]. *)
Fixpoint strip_prefix (p s : string) : option string :=
  match p, s with
  | EmptyString, _ => Some s
  | String a p', String b s' =>
      if Ascii.eqb a b then strip_prefix p' s' else None
  | String _ _, EmptyString => None
  end.

(** [s.replace(/^\/epstein\//, '')]: the leading path segment is removed. *)
Definition replace_epstein_prefix (s : string) : string :=
  default s (strip_prefix "/epstein/" s).

(** [s.replace(/\/$/, '')]: one trailing slash is removed. *)
Fixpoint replace_trailing_slash (s : string) : string :=
  match s with
  | EmptyString => EmptyString
  | String c EmptyString => if Ascii.eqb c "/"%char then EmptyString else s
  | String c s' => String c (replace_trailing_slash s')
  end.

(** The chain of tests of [getSectionColor] on the cleaned key. *)
Definition color_of_key (key : string) : string :=
  if includes key "court" then "#D4A843"
  else if includes key "doj" || includes key "disclosure" then "#4a8bc2"
  else if includes key "foia" then "#5b8a72"
  else if includes key "house" || includes key "oversight" then "#7c6e9b"
  else "#8892a4".

Definition getSectionColor (raw : string) : string :=
  color_of_key
    (replace_trailing_slash (replace_epstein_prefix (toLowerCase raw))).

(** [String.prototype.toUpperCase] of one character, on ASCII letters. *)
Definition upper_ascii (c : Ascii.ascii) : Ascii.ascii :=
  let n := Ascii.nat_of_ascii c in
  if (97 <=? n)%nat && (n <=? 122)%nat then Ascii.ascii_of_nat (n - 32) else c.

(** The separator class [[-_]]. *)
Definition is_sep (c : Ascii.ascii) : bool :=
  Ascii.eqb c "-"%char || Ascii.eqb c "_"%char.

(** [s.split(/[-_]/)] *)
Fixpoint split_sep (s : string) : list string :=
  match s with
  | EmptyString => [EmptyString]
  | String c s' =>
      if is_sep c then EmptyString :: split_sep s'
      else match split_sep s' with
           | w :: ws => String c w :: ws
           | [] => [String c EmptyString]
           end
  end.

(** [w.charAt(0).toUpperCase() + w.slice(1)] *)
Definition capitalize (w : string) : string :=
  match w with
  | EmptyString => EmptyString
  | String c w' => String (upper_ascii c) w'
  end.

(** [words.join(" ")] *)
Fixpoint join_space (ws : list string) : string :=
  match ws with
  | [] => EmptyString
  | [w] => w
  | w :: ws' => String.append w (String " "%char (join_space ws'))
  end.

Definition cleanSectionLabel (raw : string) : string :=
  let joined :=
    join_space
      (capitalize <$>
         split_sep (replace_trailing_slash (replace_epstein_prefix raw))) in
  if bool_decide (joined = EmptyString) then "Other" else joined.

(** The double-quote character. *)
Definition dquote : Ascii.ascii := Ascii.ascii_of_nat 34.

(** Quoting of the name column in [exportCSV]: every double quote is
    doubled. *)
Fixpoint csv_escape (s : string) : string :=
  match s with
  | EmptyString => EmptyString
  | String c s' =>
      if Ascii.eqb c dquote then String dquote (String dquote (csv_escape s'))
      else String c (csv_escape s')
  end.

(** [key] occurs in [s] as a contiguous substring. *)
Definition is_substring (key s : string) : Prop :=
  ∃ pre post, s = String.append pre (String.append key post).

(** The keys tested by [getNodeColor]. *)
Definition node_color_keys : list string := fst <$> SECTION_COLORS.

(** [getNodeColor] of part_006 with [sec.toLowerCase()] left as a
    parameter, so that what lower-casing does outside ASCII does not
    matter; [Graph.getNodeColor] is the instance at [toLowerCase]. *)
Fixpoint getNodeColor_with (lower : string → string) (secs : list string)
  : string :=
  match secs with
  | [] => "#8892a4"
  | sec :: rest =>
      match List.find (fun kc => includes (lower sec) (fst kc))
                      SECTION_COLORS with
      | Some kc => snd kc
      | None => getNodeColor_with lower rest
      end
  end.

(** [c] occurs in [s]. *)
Fixpoint occurs (c : Ascii.ascii) (s : string) : Prop :=
  match s with
  | EmptyString => False
  | String d s' => c = d ∨ occurs c s'
  end.

End Sections.

(* ================================================================== *)
(** * Debounced values *)
(* ================================================================== *)

Module Debounce.

(** State of [useDebounce(value, delay)], and of the hand-written
    debounce of [minCoOccurrences]: the latest value, the debounced
    value, the browser's pending timers with the value each callback
    captured, and the handle kept by the live effect for its cleanup.
    [updates] is a ghost log of the calls of [setDebounced]. *)
Record State (A : Type) := {
  value : A;
  debounced : A;
  timers : gmap positive A;
  current : option positive;
  next_handle : positive;
  updates : list A;
}.
Arguments value {A}.
Arguments debounced {A}.
Arguments timers {A}.
Arguments current {A}.
Arguments next_handle {A}.
Arguments updates {A}.

(** First render: [useState(value)], then the effect sets its timer. *)
Definition mount {A} (v0 : A) : State A :=
  {| value := v0; debounced := v0;
     timers := {[1%positive := v0]};
     current := Some 1%positive;
     next_handle := 2%positive;
     updates := [] |}.

(** [clearTimeout(t)] of the effect cleanup. *)
Definition cleanup {A} (s : State A) : gmap positive A :=
  match current s with
  | Some t => delete t (timers s)
  | None => timers s
  end.

(** The value changes to [v]: the effect is cleaned up and runs again.
    Setting the same value again re-runs nothing. *)
Definition set_value {A} `{EqDecision A} (v : A) (s : State A) : State A :=
  if decide (v = value s) then s
  else
    {| value := v; debounced := debounced s;
       timers := <[next_handle s := v]> (cleanup s);
       current := Some (next_handle s);
       next_handle := (next_handle s + 1)%positive;
       updates := updates s |}.

(** The callback of timer [t] runs: [setDebounced(value)] with the value
    it captured. *)
Definition timer_fires {A} (t : positive) (s : State A) : State A :=
  match timers s !! t with
  | Some v =>
      {| value := value s; debounced := v;
         timers := delete t (timers s);
         current := current s;
         next_handle := next_handle s;
         updates := updates s ++ [v] |}
  | None => s
  end.

Inductive Event (A : Type) :=
  | ESet (v : A)
  | EFire (t : positive).
Arguments ESet {A}.
Arguments EFire {A}.

Definition step {A} `{EqDecision A} (s : State A) (e : Event A) : State A :=
  match e with
  | ESet v => set_value v s
  | EFire t => timer_fires t s
  end.

Definition run {A} `{EqDecision A} (evs : list (Event A)) (s : State A)
  : State A :=
  foldl step s evs.

(** A burst of changes with no timer running in between. *)
Definition burst {A} `{EqDecision A} (vs : list A) (s : State A) : State A :=
  foldl (fun s v => set_value v s) s vs.

(** At most the timer of the live effect is pending, and it captured the
    latest value; a debounced value that lags behind has such a timer. *)
Record inv {A} (s : State A) : Prop := {
  inv_timer : ∀ t v, timers s !! t = Some v → current s = Some t ∧ v = value s;
  inv_fresh : ∀ t, current s = Some t → (t < next_handle s)%positive;
  inv_lag : debounced s ≠ value s →
            ∃ t, current s = Some t ∧ timers s !! t = Some (value s);
}.

(** ** The co-occurrence slider of [NetworkGraph]

    [minCoOccurrences] is debounced by 300 ms into [debouncedMinCo]; the
    fetch effect depends on [debouncedMinCo] only. *)
Record Slider := {
  deb : State Z;
  loader : Loader.State;
}.

Definition slider_mount : Slider :=
  {| deb := mount 3; loader := (Loader.run_effect Loader.init).1 |}.

(** [setMinCoOccurrences(+e.target.value)] *)
Definition slider_change (v : Z) (s : Slider) : Slider :=
  {| deb := set_value v (deb s); loader := loader s |}.

(** The debounce timer runs; the fetch effect re-runs when
    [debouncedMinCo] really changed. *)
Definition slider_timer (t : positive) (s : Slider) : Slider :=
  let d := timer_fires t (deb s) in
  {| deb := d;
     loader := if decide (debounced d = debounced (deb s)) then loader s
               else (Loader.run_effect (loader s)).1 |}.

Inductive slider_reachable : Slider → Prop :=
  | slider_reach_mount : slider_reachable slider_mount
  | slider_reach_change v s :
      slider_reachable s → slider_reachable (slider_change v s)
  | slider_reach_timer t s :
      slider_reachable s → slider_reachable (slider_timer t s).

(** A burst of slider moves with no timer running in between. *)
Definition slider_burst (vs : list Z) (s : Slider) : Slider :=
  foldl (fun s v => slider_change v s) s vs.

End Debounce.

(* ================================================================== *)
(** * Paging of the entity chart *)
(* ================================================================== *)

Module Chart.

Import Graph Loader.

Definition PAGE_SIZE : nat := 100.

(** Contract of the external query behind [fetchEntityChartData]:
    [.range(offset, offset + limit - 1)] with [count: 'exact'] over the
    filtered, ordered rows [table]. *)
Definition range_query (table : list EntityMentionCount) (offset limit : nat)
  : list EntityMentionCount * Z :=
  (take limit (drop offset table), Z.of_nat (length table)).

Record State := {
  chart : ChartState;
  loadingMore : bool;
}.

Definition init : State := {| chart := chart_init; loadingMore := false |}.

Definition fetchData_start (s : State) : State * nat :=
  ({| chart := (Loader.fetchData_start (chart s)).1;
      loadingMore := loadingMore s |},
   (Loader.fetchData_start (chart s)).2).

Definition fetchData_resolve (v : nat) (data : list EntityMentionCount)
    (count : Z) (s : State) : State :=
  {| chart := Loader.fetchData_resolve v data count (chart s);
     loadingMore := loadingMore s |}.

(** The synchronous prefix of [loadMore]: nothing happens while a page is
    loading or when no more rows are expected; otherwise the version and
    the current number of rows are captured. *)
Definition loadMore_start (s : State) : option (State * (nat * nat)) :=
  if loadingMore s || negb (hasMore (chart s)) then None
  else Some ({| chart := chart s; loadingMore := true |},
             (filterVersion (chart s), length (entities (chart s)))).

(** Continuation of [loadMore] after a successful [await]; [offset] is
    the [entities.length] captured when the request was made. *)
Definition loadMore_resolve (v offset : nat) (data : list EntityMentionCount)
    (count : Z) (s : State) : State :=
  if decide (filterVersion (chart s) ≠ v) then s
  else
    {| chart :=
         {| entities := entities (chart s) ++ data;
            totalCount := count;
            hasMore := bool_decide (Z.of_nat (offset + length data) < count);
            chart_loading := chart_loading (chart s);
            filterVersion := filterVersion (chart s) |};
       loadingMore := false |}.

(** Continuation of [loadMore] when the [await] throws. *)
Definition loadMore_reject (v : nat) (s : State) : State :=
  if decide (filterVersion (chart s) = v)
  then {| chart := chart s; loadingMore := false |}
  else s.

(** Filters change: [fetchData] asks for the first page of [table], and
    the page arrives. *)
Definition first_page (table : list EntityMentionCount) (s : State) : State :=
  let '(s1, v) := fetchData_start s in
  let '(data, count) := range_query table 0 PAGE_SIZE in
  fetchData_resolve v data count s1.

(** One round of infinite scroll: [loadMore] asks for the next page of
    [table], and the page arrives. *)
Definition load_next (table : list EntityMentionCount) (s : State) : State :=
  match loadMore_start s with
  | None => s
  | Some (s1, (v, offset)) =>
      let '(data, count) := range_query table offset PAGE_SIZE in
      loadMore_resolve v offset data count s1
  end.

(** What [load_next] keeps true once a first page is in. *)
Definition paged (table : list EntityMentionCount) (n : nat) (s : State)
  : Prop :=
  entities (chart s) = take n table
  ∧ hasMore (chart s) = bool_decide (n < length table)%nat
  ∧ totalCount (chart s) = Z.of_nat (length table)
  ∧ loadingMore s = false.

End Chart.

(* ================================================================== *)
(** * Document-type breakdown *)
(* ================================================================== *)

Module DocType.

Import Stdlib.Strings.Ascii.
Import Graph.

Definition DOC_TYPE_COLORS : list (string * string) :=
  [("email", "#4a8bc2"); ("court_filing", "#D4A843");
   ("fbi_memo", "#c25d4a"); ("foia_response", "#5b8a72");
   ("deposition", "#7c6e9b"); ("grand_jury", "#E8C164");
   ("other", "#8892a4")]%string.

(** [Object.keys(DOC_TYPE_COLORS)] *)
Definition KNOWN_DOC_TYPES : list string := fst <$> DOC_TYPE_COLORS.

Definition MAX_ENTITIES : nat := 10.

(** Own-property lookup in [DOC_TYPE_COLORS]. *)
Definition color_lookup (dt : string) : option string :=
  snd <$> List.find (fun kc => String.eqb (fst kc) dt) DOC_TYPE_COLORS.

(** [DOC_TYPE_COLORS[dt] || DOC_TYPE_COLORS.other] *)
Definition getDocTypeColor (dt : string) : string :=
  default "#8892a4"%string (color_lookup dt).

(** The class [[\s-]], on ASCII: hyphen, space, tab, line feed,
    vertical tab, form feed, carriage return. *)
Definition is_gap (c : ascii) : bool :=
  let n := nat_of_ascii c in
  (n =? 45)%nat || (n =? 32)%nat || ((9 <=? n)%nat && (n <=? 13)%nat).

(** [s.replace(/[\s-]+/g, "_")]: every maximal run of gap characters
    becomes one underscore. *)
Fixpoint collapse_gaps (s : string) : string :=
  match s with
  | EmptyString => EmptyString
  | String c s' =>
      if is_gap c then
        match s' with
        | String d _ =>
            if is_gap d then collapse_gaps s'
            else String "_" (collapse_gaps s')
        | EmptyString => String "_" EmptyString
        end
      else String c (collapse_gaps s')
  end.

Definition normalizeDocType (dt : string) : string :=
  let lower := collapse_gaps (toLowerCase dt) in
  if bool_decide (lower ∈ KNOWN_DOC_TYPES) then lower else "other".

(** [Set.prototype.delete] on an insertion-ordered set. *)
Definition set_delete (x : string) (s : list string) : list string :=
  filter (fun y => y ≠ x) s.

(** Initial selection: [new Set(data.slice(0, MAX_ENTITIES).map(id))]. *)
Definition initial_selection (data : list EntityMentionCount) : list string :=
  foldl (fun s e => set_add (entity_id e) s) [] (take MAX_ENTITIES data).

(** The updater of [toggleEntity]. *)
Definition toggleEntity (i : string) (prev : list string) : list string :=
  if decide (i ∈ prev) then set_delete i prev
  else if decide (length prev < MAX_ENTITIES)%nat then set_add i prev
  else prev.

(** The updater of [toggleDocType]. *)
Definition toggleDocType (dt : string) (prev : list string) : list string :=
  if decide (dt ∈ prev) then set_delete dt prev else set_add dt prev.

(** [docTypes.filter(dt => !hiddenTypes.has(dt))] *)
Definition visibleDocTypes (docTypes hiddenTypes : list string)
  : list string :=
  filter (fun dt => dt ∉ hiddenTypes) docTypes.

(** One row of [getEntityDocTypeData]. *)
Record Mention := { m_entity_id : string; m_doc_type : string }.

(** State of the grouping loop: [grouped] and [allTypes]. *)
Record Grouping := {
  grouped : gmap string (gmap string Z);
  allTypes : list string;
}.

(** Body of [for (const m of mentions)]. *)
Definition group_step (g : Grouping) (m : Mention) : Grouping :=
  let dt := normalizeDocType (m_doc_type m) in
  let em := default ∅ (grouped g !! m_entity_id m) in
  {| grouped :=
       <[m_entity_id m := <[dt := default 0 (em !! dt) + 1]> em]> (grouped g);
     allTypes := set_add dt (allTypes g) |}.

Definition group_mentions (mentions : list Mention) : Grouping :=
  foldl group_step {| grouped := ∅; allTypes := [] |} mentions.

(** A cell of a chart row:
    [(grouped.get(id) || new Map()).get(dt) || 0]. *)
Definition cell (g : Grouping) (i dt : string) : Z :=
  default 0 (default ∅ (grouped g !! i) !! dt).

(** Number of mentions of entity [i] whose normalized type is [dt]. *)
Definition count_mentions (i dt : string) (mentions : list Mention) : Z :=
  Z.of_nat
    (length
       (filter (fun m => m_entity_id m = i ∧
                         normalizeDocType (m_doc_type m) = dt) mentions)).

(** Selections reachable from the initial one by toggling. *)
Inductive selectable (data : list EntityMentionCount) : list string → Prop :=
  | sel_initial : selectable data (initial_selection data)
  | sel_toggle i s : selectable data s → selectable data (toggleEntity i s).

End DocType.

(* ================================================================== *)
(** * Entities related to one entity *)
(* ================================================================== *)

Module Related.

Import Graph.

(** [xs.sort((a, b) => key(b) - key(a))]: the sort is stable, so the
    result is the stable arrangement by decreasing key. *)
Fixpoint insert_desc {T} (key : T → Z) (x : T) (l : list T) : list T :=
  match l with
  | [] => [x]
  | y :: l' =>
      if bool_decide (key y ≤ key x) then x :: y :: l'
      else y :: insert_desc key x l'
  end.

Definition sort_desc {T} (key : T → Z) (l : list T) : list T :=
  foldr (insert_desc key) [] l.

(** [CoEntity] of [EntityComparison]. *)
Record CoEntity := {
  co_id : string;
  co_name : string;
  coOccurrences : Z;
  sharedDocs : Z;
}.

(** Row type returned by [getEntityCoMentions]. *)
Record CoMentionRow := {
  entity_id : string;
  entity_name : string;
  shared_documents : Z;
  co_occurrences : Z;
}.

(** Body of the loop of [EntityComparison]. *)
Definition related_step (entityId : string) (related : list CoEntity)
    (cm : CoMention) : list CoEntity :=
  if decide (entity_a_id cm = entityId) then
    related ++ [{| co_id := entity_b_id cm; co_name := entity_b_name cm;
                   coOccurrences := co_occurrence_count cm;
                   sharedDocs := Graph.shared_documents cm |}]
  else if decide (entity_b_id cm = entityId) then
    related ++ [{| co_id := entity_a_id cm; co_name := entity_a_name cm;
                   coOccurrences := co_occurrence_count cm;
                   sharedDocs := Graph.shared_documents cm |}]
  else related.

(** The list shown by [EntityComparison]: related entities by
    decreasing co-occurrence, the first 15. *)
Definition comparison_list (entityId : string) (data : list CoMention)
  : list CoEntity :=
  take 15 (sort_desc coOccurrences (foldl (related_step entityId) [] data)).

(** The fallback branch of [getEntityCoMentions]. *)
Definition coMentions_fallback (entityId : string) (all : list CoMention)
  : list CoMentionRow :=
  sort_desc co_occurrences
    ((fun cm =>
        let isA := bool_decide (entity_a_id cm = entityId) in
        {| entity_id := if isA then entity_b_id cm else entity_a_id cm;
           entity_name := if isA then entity_b_name cm else entity_a_name cm;
           shared_documents := Graph.shared_documents cm;
           co_occurrences := co_occurrence_count cm |})
     <$> filter (fun cm => entity_a_id cm = entityId ∨
                           entity_b_id cm = entityId) all).

(** The entry made by [related_step] for a pair that involves
    [entityId]. *)
Definition other_end (entityId : string) (cm : CoMention) : CoEntity :=
  if bool_decide (entity_a_id cm = entityId)
  then {| co_id := entity_b_id cm; co_name := entity_b_name cm;
          coOccurrences := co_occurrence_count cm;
          sharedDocs := Graph.shared_documents cm |}
  else {| co_id := entity_a_id cm; co_name := entity_a_name cm;
          coOccurrences := co_occurrence_count cm;
          sharedDocs := Graph.shared_documents cm |}.

(** The row made by the fallback for a pair. *)
Definition fallback_row (entityId : string) (cm : CoMention) : CoMentionRow :=
  let isA := bool_decide (entity_a_id cm = entityId) in
  {| entity_id := if isA then entity_b_id cm else entity_a_id cm;
     entity_name := if isA then entity_b_name cm else entity_a_name cm;
     shared_documents := Graph.shared_documents cm;
     co_occurrences := co_occurrence_count cm |}.

Definition involves (entityId : string) (cm : CoMention) : Prop :=
  entity_a_id cm = entityId ∨ entity_b_id cm = entityId.

(** The same row under the field names of [CoEntity]. *)
Definition as_CoEntity (r : CoMentionRow) : CoEntity :=
  {| co_id := entity_id r; co_name := entity_name r;
     coOccurrences := co_occurrences r; sharedDocs := shared_documents r |}.

(** The same pair written the other way round. *)
Definition swap_pair (cm : CoMention) : CoMention :=
  {| entity_a_id := entity_b_id cm; entity_a_name := entity_b_name cm;
     entity_b_id := entity_a_id cm; entity_b_name := entity_a_name cm;
     co_occurrence_count := co_occurrence_count cm;
     Graph.shared_documents := Graph.shared_documents cm |}.

End Related.

(* ================================================================== *)
(** * Facts about the graph builder *)
(* ================================================================== *)

Section GraphFacts.

Import Graph.

Implicit Types (em : gmap string EntityMentionCount) (minM : Z).
Implicit Types (raw : list CoMention) (ids acc : list string) (i : string).

Example getNodeColor_doj :
  getNodeColor ["Misc"; "DOJ Disclosures"; "Court Records"]%string
  = "#4a8bc2"%string.
Proof. reflexivity. Qed.

Example getNodeColor_other : getNodeColor ["Misc"%string] = "#8892a4"%string.
Proof. reflexivity. Qed.

Lemma elem_of_set_add i x (s : list string) :
  i ∈ set_add x s ↔ i = x ∨ i ∈ s.
Proof.
  unfold set_add. destruct (decide (x ∈ s)) as [Hx|Hx].
  - split; [auto|]. intros [->|?]; assumption.
  - rewrite elem_of_app, list_elem_of_singleton. tauto.
Qed.

Lemma NoDup_set_add x (s : list string) : NoDup s → NoDup (set_add x s).
Proof.
  intros Hs. unfold set_add. destruct (decide (x ∈ s)) as [Hx|Hx]; [done|].
  apply NoDup_app. split; [done|]. split.
  - intros y Hy Hy'. apply list_elem_of_singleton in Hy'. by subst.
  - apply NoDup_singleton.
Qed.

Lemma elem_of_collect_step em minM acc (cm : CoMention) i :
  i ∈ collect_step em minM acc cm ↔
  i ∈ acc ∨ (meets em minM i = true ∧ (entity_a_id cm = i ∨ entity_b_id cm = i)).
Proof.
  unfold collect_step.
  destruct (meets em minM (entity_a_id cm)) eqn:Ha;
    destruct (meets em minM (entity_b_id cm)) eqn:Hb;
    rewrite ?elem_of_set_add; split; intros H.
  all: repeat match goal with
    | H : _ ∨ _ |- _ => destruct H
    | H : _ ∧ _ |- _ => destruct H
    end; subst; try tauto; try congruence; auto 6.
Qed.

Lemma NoDup_collect_step em minM acc (cm : CoMention) :
  NoDup acc → NoDup (collect_step em minM acc cm).
Proof.
  intros H. unfold collect_step.
  destruct (meets _ _ (entity_a_id cm)), (meets _ _ (entity_b_id cm));
    auto using NoDup_set_add.
Qed.

Lemma elem_of_collect_from em minM raw acc i :
  i ∈ foldl (collect_step em minM) acc raw ↔
  i ∈ acc ∨ (meets em minM i = true ∧
             ∃ cm, cm ∈ raw ∧ (entity_a_id cm = i ∨ entity_b_id cm = i)).
Proof.
  revert acc. induction raw as [|cm raw IH]; intros acc; simpl.
  - split; [auto|]. intros [?|[_ (cm & Hcm & _)]]; [done|]. by apply elem_of_nil in Hcm.
  - rewrite IH, elem_of_collect_step. split.
    + intros [[?|[Hm Hc]]|[Hm (c & Hc & He)]]; auto.
      * right. split; [done|]. exists cm. split; [left|done].
      * right. split; [done|]. exists c. split; [by right|done].
    + intros [?|[Hm (c & Hc & He)]]; auto.
      apply elem_of_cons in Hc as [->|Hc]; [auto|].
      right. split; [done|]. by exists c.
Qed.

(** What the collection loop really admits: an identifier is collected
    exactly when it meets the mention threshold and is an endpoint of at
    least one raw pair (whatever the other endpoint is). *)
Lemma elem_of_collect_nodeIds em minM raw i :
  i ∈ collect_nodeIds em minM raw ↔
  meets em minM i = true ∧
  ∃ cm, cm ∈ raw ∧ (entity_a_id cm = i ∨ entity_b_id cm = i).
Proof.
  unfold collect_nodeIds. rewrite elem_of_collect_from. split; [|auto].
  intros [H|H]; [by apply elem_of_nil in H|done].
Qed.

Lemma NoDup_collect_nodeIds em minM raw : NoDup (collect_nodeIds em minM raw).
Proof.
  unfold collect_nodeIds. generalize (NoDup_nil_2 (A:=string)).
  generalize (@nil string). induction raw as [|cm raw IH]; intros acc Hacc; simpl.
  - done.
  - apply IH. by apply NoDup_collect_step.
Qed.

Lemma meets_Some em minM i :
  meets em minM i = true →
  ∃ e, em !! i = Some e ∧ minM ≤ total_mentions e.
Proof.
  unfold meets. destruct (em !! i) as [e|]; [|done].
  intros H. apply bool_decide_eq_true in H. eauto.
Qed.

Lemma collect_nodeIds_known em minM raw :
  Forall (fun i => is_Some (em !! i)) (collect_nodeIds em minM raw).
Proof.
  apply Forall_forall. intros i Hi.
  apply elem_of_collect_nodeIds in Hi as [Hm _].
  apply meets_Some in Hm as (e & -> & _). eauto.
Qed.

(** On identifiers the entity map knows, the node loop never skips. *)
Lemma node_id_mk_graphNodes em mx ids :
  Forall (fun i => is_Some (em !! i)) ids →
  node_id <$> mk_graphNodes em mx ids = ids.
Proof.
  unfold mk_graphNodes. induction 1 as [|i ids [e He] _ IH]; simpl; [done|].
  rewrite He. simpl. f_equal. exact IH.
Qed.

Lemma mentions_mk_graphNodes em mx ids :
  Forall (fun i => is_Some (em !! i)) ids →
  mentions <$> mk_graphNodes em mx ids = mentions_or_0 em <$> ids.
Proof.
  unfold mk_graphNodes, mentions_or_0.
  induction 1 as [|i ids [e He] _ IH]; simpl; [done|].
  rewrite He. simpl. f_equal. exact IH.
Qed.

Lemma elem_of_mk_graphNodes em mx ids (n : GraphNode) :
  n ∈ mk_graphNodes em mx ids ↔
  ∃ i e, i ∈ ids ∧ em !! i = Some e ∧ n = mk_node mx i e.
Proof.
  unfold mk_graphNodes. rewrite list_elem_of_omap. split.
  - intros (i & Hi & Hn). destruct (em !! i) as [e|] eqn:He; [|done].
    simpl in Hn. injection Hn as <-. eauto.
  - intros (i & e & Hi & He & ->). exists i. split; [done|]. by rewrite He.
Qed.

Lemma elem_of_mk_graphLinks ids raw (l : GraphLink) :
  l ∈ mk_graphLinks ids raw →
  ∃ cm, cm ∈ raw ∧ l = mk_link cm ∧ entity_a_id cm ∈ ids ∧ entity_b_id cm ∈ ids.
Proof.
  unfold mk_graphLinks. intros H.
  apply list_elem_of_fmap in H as (cm & -> & Hcm). exists cm.
  apply elem_of_take in Hcm as (k & Hk & _).
  apply list_elem_of_lookup_2 in Hk.
  apply list_elem_of_filter in Hk as [[Ha Hb] Hin]. done.
Qed.

(** The two early returns and the general case of [build_graph]. *)
Lemma build_graph_cases (rawEntities : list EntityMentionCount) raw minM :
  let em := mk_entityMap rawEntities in
  let ids := collect_nodeIds em minM raw in
  build_graph rawEntities raw minM = empty_graph ∨
  (rawEntities ≠ [] ∧ ids ≠ [] ∧
   build_graph rawEntities raw minM =
     {| nodes := mk_graphNodes em (compute_maxMentions em ids) ids;
        links := mk_graphLinks ids raw |}).
Proof.
  intros em ids. unfold build_graph.
  destruct (decide (length rawEntities = 0%nat)) as [?|Hne]; [by left|].
  fold em. fold ids.
  destruct (decide (length _ = 0%nat)) as [?|Hn]; [by left|].
  right. split; [by destruct rawEntities|]. split; [|done].
  intros Hids. apply Hn. by rewrite Hids.
Qed.

Lemma node_ids_build_graph (rawEntities : list EntityMentionCount) raw minM :
  node_ids (build_graph rawEntities raw minM) =
  if decide (rawEntities = []) then []
  else collect_nodeIds (mk_entityMap rawEntities) minM raw.
Proof.
  unfold build_graph, node_ids.
  destruct (decide (length rawEntities = 0%nat)) as [Hl|Hl].
  - apply length_zero_iff_nil in Hl. subst. done.
  - destruct (decide (rawEntities = [])) as [->|_]; [done|].
    set (em := mk_entityMap rawEntities).
    set (ids := collect_nodeIds em minM raw).
    pose proof (node_id_mk_graphNodes em (compute_maxMentions em ids) ids
                  (collect_nodeIds_known em minM raw)) as Hids.
    destruct (decide (length _ = 0%nat)) as [Hz|Hz]; simpl.
    + apply length_zero_iff_nil in Hz. rewrite Hz in Hids. done.
    + done.
Qed.

(** What the builder keeps as a node: an identifier that meets the
    mention threshold and is an endpoint of some raw pair. *)
Lemma elem_of_node_ids (rawEntities : list EntityMentionCount) raw minM i :
  i ∈ node_ids (build_graph rawEntities raw minM) ↔
  rawEntities ≠ [] ∧ meets (mk_entityMap rawEntities) minM i = true ∧
  ∃ cm, cm ∈ raw ∧ (entity_a_id cm = i ∨ entity_b_id cm = i).
Proof.
  rewrite node_ids_build_graph.
  destruct (decide (rawEntities = [])) as [->|Hne].
  - split; [intros H; by apply elem_of_nil in H|]. by intros [? _].
  - rewrite elem_of_collect_nodeIds. tauto.
Qed.

Lemma nodes_build_graph (rawEntities : list EntityMentionCount) raw minM
    (n : GraphNode) :
  let g := build_graph rawEntities raw minM in
  n ∈ nodes g →
  ∃ i e, mk_entityMap rawEntities !! i = Some e ∧ minM ≤ total_mentions e ∧
         n = mk_node (max_with_1 (mentions <$> nodes g)) i e.
Proof.
  intros g Hn. subst g.
  destruct (build_graph_cases rawEntities raw minM) as [He|(_ & _ & He)];
    rewrite He in Hn |- *; simpl in *.
  { by apply elem_of_nil in Hn. }
  set (em := mk_entityMap rawEntities) in *.
  set (ids := collect_nodeIds em minM raw) in *.
  rewrite (mentions_mk_graphNodes em _ ids (collect_nodeIds_known em minM raw)).
  fold (compute_maxMentions em ids).
  apply elem_of_mk_graphNodes in Hn as (i & e & Hi & Hie & ->).
  exists i, e. split; [done|]. split; [|done].
  apply elem_of_collect_nodeIds in Hi as [Hm _].
  apply meets_Some in Hm as (e' & He' & Hle). congruence.
Qed.

Lemma max_with_1_ge_1 (xs : list Z) : 1 ≤ max_with_1 xs.
Proof. induction xs as [|z xs IH]; simpl; lia. Qed.

Lemma max_with_1_ub (xs : list Z) z : z ∈ xs → z ≤ max_with_1 xs.
Proof.
  induction xs as [|z' xs IH]; intros Hz; [by apply elem_of_nil in Hz|].
  apply elem_of_cons in Hz as [->|Hz]; simpl; [lia|]. specialize (IH Hz). lia.
Qed.

Lemma max_with_1_attained (xs : list Z) :
  max_with_1 xs = 1 ∨ max_with_1 xs ∈ xs.
Proof.
  induction xs as [|z xs IH]; [by left|].
  change (max_with_1 (z :: xs)) with (Z.max z (max_with_1 xs)).
  destruct (Z.max_spec z (max_with_1 xs)) as [[_ ->]|[_ ->]].
  - destruct IH as [IH|IH]; [by left|right]. apply elem_of_cons. by right.
  - right. apply elem_of_cons. by left.
Qed.

Lemma ln_2_pos : (0 < ln 2)%R.
Proof. rewrite <- ln_1. apply ln_increasing; lra. Qed.

Lemma log2_pos (r : R) : (1 < r)%R → (0 < log2 r)%R.
Proof.
  intros Hr. unfold log2. apply Rdiv_lt_0_compat; [|apply ln_2_pos].
  rewrite <- ln_1. apply ln_increasing; lra.
Qed.

Lemma log2_le (r1 r2 : R) : (0 < r1)%R → (r1 <= r2)%R → (log2 r1 <= log2 r2)%R.
Proof.
  intros Hpos [Hlt | ->]; [|lra]. unfold log2.
  apply Rmult_le_compat_r.
  - left. apply Rinv_0_lt_compat, ln_2_pos.
  - left. by apply ln_increasing.
Qed.

Lemma node_radius_mono (mx m1 m2 : Z) :
  1 ≤ mx → 0 ≤ m1 → m1 ≤ m2 →
  (node_radius mx m1 <= node_radius mx m2)%R.
Proof.
  intros Hmx H1 H12. unfold node_radius.
  assert (0 < log2 (IZR (mx + 1)))%R as HL.
  { apply log2_pos. apply (IZR_lt 1). lia. }
  assert (log2 (IZR (m1 + 1)) <= log2 (IZR (m2 + 1)))%R as Hle.
  { apply log2_le; [apply (IZR_lt 0); lia | apply IZR_le; lia]. }
  apply Rplus_le_compat_l, Rmult_le_compat_r; [lra|].
  apply Rmult_le_compat_r; [|done].
  left. by apply Rinv_0_lt_compat.
Qed.

Lemma length_filter_fmap_link (Q : GraphLink → Prop)
    `{!∀ l, Decision (Q l)} (cms : list CoMention) :
  length (filter Q (mk_link <$> cms)) =
  length (filter (fun cm => Q (mk_link cm)) cms).
Proof.
  induction cms as [|cm cms IH]; [done|].
  rewrite fmap_cons, !filter_cons.
  destruct (decide (Q (mk_link cm))); simpl; by rewrite IH.
Qed.

Lemma length_filter_sublist {A} (Q : A → Prop) `{!∀ a, Decision (Q a)}
    (l1 l2 : list A) :
  l1 `sublist_of` l2 → (length (filter Q l1) ≤ length (filter Q l2))%nat.
Proof.
  induction 1 as [|a l1 l2 _ IH|a l1 l2 _ IH]; [done| |];
    rewrite ?filter_cons; destruct (decide (Q a)); simpl; lia.
Qed.

Lemma filter_filter_implied {A} (P Q : A → Prop)
    `{!∀ a, Decision (P a)} `{!∀ a, Decision (Q a)} (l : list A) :
  (∀ a, a ∈ l → Q a → P a) → filter Q (filter P l) = filter Q l.
Proof.
  induction l as [|a l IH]; intros HQP; [done|].
  assert (∀ b, b ∈ l → Q b → P b) as Htl.
  { intros b Hb. apply HQP. by right. }
  rewrite !filter_cons. destruct (decide (P a)) as [Hp|Hp].
  - rewrite filter_cons. destruct (decide (Q a)); by rewrite IH.
  - destruct (decide (Q a)) as [Hq|Hq]; [|by rewrite IH].
    destruct Hp. apply HQP; [left|done].
Qed.

Lemma joins_endpoints (a b x1 x2 : string) :
  joins a b x1 x2 = true → (x1 = a ∧ x2 = b) ∨ (x1 = b ∧ x2 = a).
Proof.
  unfold joins. intros H. apply orb_true_iff in H as [H|H];
    apply bool_decide_eq_true in H; auto.
Qed.

(** The early returns: no entity rows, or no pair rows. *)
Lemma build_graph_no_entities raw minM : build_graph [] raw minM = empty_graph.
Proof. done. Qed.

Lemma build_graph_no_pairs (rawEntities : list EntityMentionCount) minM :
  build_graph rawEntities [] minM = empty_graph.
Proof.
  unfold build_graph. destruct (decide (length rawEntities = 0%nat)); done.
Qed.

Lemma mk_graphLinks_nil raw : mk_graphLinks [] raw = [].
Proof.
  unfold mk_graphLinks.
  assert (filter (fun cm => entity_a_id cm ∈ @nil string ∧
                            entity_b_id cm ∈ @nil string) raw = []) as ->; [|done].
  induction raw as [|cm raw IH]; [done|].
  rewrite filter_cons. destruct (decide _) as [[Ha _]|_]; [|done].
  by apply elem_of_nil in Ha.
Qed.

Lemma links_build_graph (rawEntities : list EntityMentionCount) raw minM :
  rawEntities ≠ [] →
  links (build_graph rawEntities raw minM) =
  mk_graphLinks (collect_nodeIds (mk_entityMap rawEntities) minM raw) raw.
Proof.
  intros Hne. unfold build_graph.
  destruct (decide (length rawEntities = 0%nat)) as [Hl|_].
  { apply length_zero_iff_nil in Hl. done. }
  set (em := mk_entityMap rawEntities).
  set (ids := collect_nodeIds em minM raw).
  destruct (decide (length _ = 0%nat)) as [Hz|_]; [|done].
  apply length_zero_iff_nil in Hz.
  pose proof (node_id_mk_graphNodes em (compute_maxMentions em ids) ids
                (collect_nodeIds_known em minM raw)) as Hids.
  rewrite Hz in Hids. simpl in Hids. rewrite <- Hids.
  by rewrite mk_graphLinks_nil.
Qed.

End GraphFacts.

(* ================================================================== *)
(** * Properties of the graph builder *)
(* ================================================================== *)

Section GraphClaims.

Import Graph.

(** C1 (node admission), evaluated on the code.  With entities A (100
    mentions) and B (5 mentions), the single pair A-B and
    [minMentions = 10], the built graph has no link, yet A is a node: the
    collection loop tests each endpoint on its own, although its comment
    reads "both ends must meet minMentions".  So a node can have no edge
    in the built graph. *)
Theorem node_kept_without_edge :
  let g := build_graph [ent "A" 100; ent "B" 5] [pair "A" "B" 10 8] 10 in
  node_ids g = ["A"%string] ∧ links g = [] ∧ degree "A" g = 0%nat.
Proof. vm_compute. done. Qed.

(** C2 (radius).  Every snapshot has a number [maxMentions] that is the
    largest mention count among its built nodes, floored at 1: it is at
    least 1, no built node has more mentions, and it is 1 or the mention
    count of some built node.  Every built node has radius
    [5 + (log2 (mentions + 1) / log2 (maxMentions + 1)) * 18] for that
    number; and, for a non-negative mention threshold, a node with more
    mentions never has a smaller radius. *)
Theorem radius_formula_monotone (rawEntities : list EntityMentionCount)
    (rawCoMentions : list CoMention) (minMentions : Z) :
  let g := build_graph rawEntities rawCoMentions minMentions in
  ∃ maxMentions : Z,
    1 ≤ maxMentions
    ∧ (∀ n, n ∈ nodes g → mentions n ≤ maxMentions)
    ∧ (maxMentions = 1 ∨ ∃ n, n ∈ nodes g ∧ mentions n = maxMentions)
    ∧ (∀ n, n ∈ nodes g →
         radius n =
         (5 + (log2 (IZR (mentions n + 1)) / log2 (IZR (maxMentions + 1))) * 18)%R)
    ∧ (0 ≤ minMentions →
       ∀ a b, a ∈ nodes g → b ∈ nodes g →
              mentions a > mentions b → (radius a >= radius b)%R).
Proof.
  intros g. exists (max_with_1 (mentions <$> nodes g)).
  split; [apply max_with_1_ge_1|]. split; [|split; [|split]].
  - intros n Hn. apply max_with_1_ub, list_elem_of_fmap. by exists n.
  - destruct (max_with_1_attained (mentions <$> nodes g)) as [H1|Hin];
      [by left|right].
    apply list_elem_of_fmap in Hin as (n & Hm & Hn). by exists n.
  - intros n Hn. by apply nodes_build_graph in Hn as (i & e & _ & _ & ->).
  - intros Hmin a b Ha Hb Hgt.
    apply nodes_build_graph in Ha as (ia & ea & _ & Hea & ->).
    apply nodes_build_graph in Hb as (ib & eb & _ & Heb & ->).
    simpl in *. apply Rle_ge, node_radius_mono.
    + apply max_with_1_ge_1.
    + lia.
    + lia.
Qed.

(** Entities A (100 mentions) and B (50 mentions) joined by one pair:
    the snapshot maximum is 100, both radii are computed against it, and
    A is drawn at least as large as B. *)
Lemma radius_formula_monotone_witness :
  let g := build_graph [ent "A" 100; ent "B" 50] [pair "A" "B" 10 8] 10 in
  let A := mk_node 100 "A" (ent "A" 100) in
  let B := mk_node 100 "B" (ent "B" 50) in
  nodes g = [A; B]
  ∧ radius A = (5 + (log2 (IZR (100 + 1)) / log2 (IZR (100 + 1))) * 18)%R
  ∧ radius B = (5 + (log2 (IZR (50 + 1)) / log2 (IZR (100 + 1))) * 18)%R
  ∧ (radius A >= radius B)%R.
Proof.
  intros g A B.
  assert (nodes g = [A; B]) as Hn by reflexivity.
  assert (A ∈ nodes g) as HA by (rewrite Hn; apply elem_of_cons; by left).
  assert (B ∈ nodes g) as HB.
  { rewrite Hn. apply elem_of_cons. right. apply elem_of_cons. by left. }
  destruct (radius_formula_monotone [ent "A" 100; ent "B" 50]
              [pair "A" "B" 10 8] 10) as (M & _ & Hub & Hatt & Hrad & Hmono).
  fold g in Hub, Hatt, Hrad, Hmono.
  assert (M = 100) as ->.
  { pose proof (Hub A HA) as HleA. simpl in HleA.
    destruct Hatt as [->|(n & Hin & Hm)]; [lia|].
    rewrite Hn in Hin.
    apply elem_of_cons in Hin as [->|Hin]; [simpl in Hm; lia|].
    apply elem_of_cons in Hin as [->|Hin]; [simpl in Hm; lia|].
    by apply elem_of_nil in Hin. }
  split; [done|]. split; [exact (Hrad A HA)|]. split; [exact (Hrad B HB)|].
  apply Hmono; [lia|done|done|simpl; lia].
Defined.

(** C3 (no dangling edges).  Both endpoints of every built link are
    identifiers of built nodes. *)
Theorem no_dangling_edges (rawEntities : list EntityMentionCount)
    (rawCoMentions : list CoMention) (minMentions : Z) (l : GraphLink) :
  let g := build_graph rawEntities rawCoMentions minMentions in
  l ∈ links g → sourceId l ∈ node_ids g ∧ targetId l ∈ node_ids g.
Proof.
  intros g Hl. subst g. rewrite node_ids_build_graph.
  destruct (build_graph_cases rawEntities rawCoMentions minMentions)
    as [He|(Hne & _ & He)]; rewrite He in Hl; simpl in Hl.
  { by apply elem_of_nil in Hl. }
  destruct (decide (rawEntities = [])); [done|].
  by apply elem_of_mk_graphLinks in Hl as (cm & _ & -> & Ha & Hb).
Qed.

Lemma no_dangling_edges_witness :
  let g := build_graph [ent "A" 100; ent "B" 50] [pair "A" "B" 10 8] 10 in
  "A"%string ∈ node_ids g ∧ "B"%string ∈ node_ids g.
Proof.
  intros g.
  apply (no_dangling_edges [ent "A" 100; ent "B" 50] [pair "A" "B" 10 8] 10
           (mk_link (pair "A" "B" 10 8))).
  vm_compute. apply elem_of_cons. by left.
Defined.

(** C4 as stated (a pair and its reversed duplicate give at most one
    edge) fails: both rows become links. *)
Lemma reversed_duplicate_gives_two_edges :
  ¬ (∀ (rawEntities : list EntityMentionCount) (raw : list CoMention)
       (minMentions : Z) (a b : string) (p q : CoMention),
       p ∈ raw → entity_a_id p = a → entity_b_id p = b →
       q ∈ raw → entity_a_id q = b → entity_b_id q = a →
       (pair_edges a b (build_graph rawEntities raw minMentions) ≤ 1)%nat).
Proof.
  intros H.
  pose (es := [ent "A" 100; ent "B" 50]).
  pose (raw := [pair "A" "B" 10 8; pair "B" "A" 10 8]).
  assert (pair_edges "A" "B" (build_graph es raw 10) = 2%nat) as Hcount.
  { vm_compute. done. }
  assert (2 ≤ 1)%nat as Hbad; [|lia].
  rewrite <- Hcount.
  apply (H es raw 10 "A"%string "B"%string
           (pair "A" "B" 10 8) (pair "B" "A" 10 8));
    try done; subst raw; repeat constructor.
Qed.

(** C4, amended.  The builder maps every surviving raw row to one link
    and never merges orientations: the links joining [{a, b}] are never
    more than the raw rows joining [{a, b}], and they are exactly as many
    when both endpoints meet the mention threshold and at most 500 rows
    were fetched. *)
Theorem one_edge_per_raw_row (rawEntities : list EntityMentionCount)
    (rawCoMentions : list CoMention) (minMentions : Z) (a b : string) :
  let g := build_graph rawEntities rawCoMentions minMentions in
  let em := mk_entityMap rawEntities in
  (pair_edges a b g ≤ pair_rows a b rawCoMentions)%nat
  ∧ (rawEntities ≠ [] →
     meets em minMentions a = true → meets em minMentions b = true →
     (length rawCoMentions ≤ 500)%nat →
     pair_edges a b g = pair_rows a b rawCoMentions).
Proof.
  intros g em. subst g. unfold pair_edges, pair_rows. split.
  - destruct (build_graph_cases rawEntities rawCoMentions minMentions)
      as [He|(_ & _ & He)]; rewrite He; simpl; [lia|].
    unfold mk_graphLinks. rewrite length_filter_fmap_link.
    apply length_filter_sublist.
    etrans; [apply sublist_take|apply sublist_filter].
  - intros Hne Ha Hb Hlen. rewrite links_build_graph by done.
    fold em. unfold mk_graphLinks. rewrite length_filter_fmap_link.
    rewrite take_ge.
    2:{ etrans; [apply length_filter|done]. }
    f_equal. apply filter_filter_implied.
    intros cm Hcm Hj. simpl in Hj.
    assert (∀ i, meets em minMentions i = true →
                 (entity_a_id cm = i ∨ entity_b_id cm = i) →
                 i ∈ collect_nodeIds em minMentions rawCoMentions) as Hin.
    { intros i Hi Hend. apply elem_of_collect_nodeIds. eauto. }
    apply joins_endpoints in Hj as [[Hx Hy]|[Hx Hy]];
      split; first [by apply (Hin a); auto | by apply (Hin b); auto
                   | rewrite Hx; by apply Hin; auto
                   | rewrite Hy; by apply Hin; auto].
Qed.

Lemma one_edge_per_raw_row_witness :
  let es := [ent "A" 100; ent "B" 50] in
  let raw := [pair "A" "B" 10 8; pair "B" "A" 10 8] in
  pair_edges "A" "B" (build_graph es raw 10) = pair_rows "A" "B" raw.
Proof.
  intros es raw.
  apply (proj2 (one_edge_per_raw_row es raw 10 "A" "B")).
  - done.
  - vm_compute. reflexivity.
  - vm_compute. reflexivity.
  - simpl. lia.
Defined.

(** C5 (end-to-end example).  Entities A/100, B/50, C/5, pairs A-B
    (co 10, shared 8) and B-C (co 1, shared 1), [minMentions = 10],
    [minCoOccurrences = 5]: the snapshot has exactly the nodes A and B and
    exactly the link A-B; C and B-C are left out. *)
Theorem end_to_end_example :
  let g := Gateway.snapshot
             [ent "A" 100; ent "B" 50; ent "C" 5]
             [pair "A" "B" 10 8; pair "B" "C" 1 1] 10 5 in
  node_ids g = ["A"%string; "B"%string]
  ∧ links g = [mk_link (pair "A" "B" 10 8)]
  ∧ ("C"%string ∉ node_ids g)
  ∧ pair_edges "B" "C" g = 0%nat.
Proof.
  intros g.
  assert (node_ids g = ["A"%string; "B"%string]) as Hn by (vm_compute; done).
  assert (links g = [mk_link (pair "A" "B" 10 8)]) as Hl by (vm_compute; done).
  split; [done|]. split; [done|]. split.
  - rewrite Hn. intros H. repeat (apply elem_of_cons in H as [H|H]; [done|]).
    by apply elem_of_nil in H.
  - unfold pair_edges. rewrite Hl. vm_compute. done.
Qed.

(** C9 (degenerate input), evaluated on the code.  With an empty entity
    list, or an empty pair list, the builder returns the empty graph
    ([build_graph_no_entities], [build_graph_no_pairs]).  But when pairs
    are given and none of them survives the builder's own filtering, the
    node set need not be empty: with X (40 mentions), Y (3 mentions), the
    pair X-Y and [minMentions = 10], no link is built and X is still
    returned as a node. *)
Theorem no_surviving_pair_nodes_remain :
  let g := build_graph [ent "X" 40; ent "Y" 3] [pair "X" "Y" 7 2] 10 in
  links g = [] ∧ node_ids g = ["X"%string] ∧ nodes g ≠ [].
Proof.
  intros g.
  assert (node_ids g = ["X"%string]) as Hn by (vm_compute; done).
  assert (links g = []) as Hl by (vm_compute; done).
  split; [done|]. split; [done|].
  intros Hnil. unfold node_ids in Hn. by rewrite Hnil in Hn.
Qed.

End GraphClaims.

(* ================================================================== *)
(** * Click disambiguation *)
(* ================================================================== *)

Section ClickFacts.

Import Click.

Lemma wf_init : wf init.
Proof.
  split; simpl.
  - intros n h Hn. by rewrite lookup_empty in Hn.
  - intros h t Ht. by rewrite lookup_empty in Ht.
  - intros h [t Ht]. by rewrite lookup_empty in Ht.
  - intros e He. by apply elem_of_nil in He.
  - apply NoDup_nil_2.
Qed.

(** A pending single click is resolved (by its timer, or by a second
    click): its entry leaves both tables and one effect is logged. *)
Lemma wf_resolved (s : State) (n : string) (h : positive) (sel : option string)
    (e : Effect) :
  wf s → clickTimeouts s !! n = Some h → effect_handle e = h →
  wf {| selectedNode := sel;
        clickTimeouts := delete n (clickTimeouts s);
        timers := delete h (timers s);
        next_handle := next_handle s;
        log := log s ++ [e] |}.
Proof.
  intros [Hmap Htimer Hfresh Hlog Honce] Hn He.
  destruct (Hmap n h Hn) as (t & Ht & Htn).
  split; simpl.
  - intros n' h' Hn'. apply lookup_delete_Some in Hn' as [Hne Hn'].
    destruct (Hmap n' h' Hn') as (t' & Ht' & Htn'). exists t'. split; [|done].
    apply lookup_delete_Some. split; [|done].
    intros <-. congruence.
  - intros h' t' Ht'. apply lookup_delete_Some in Ht' as [Hne Ht'].
    apply lookup_delete_Some. split; [|by apply Htimer].
    intros Heq. specialize (Htimer h' t' Ht'). rewrite <- Heq in Htimer. congruence.
  - intros h' [t' Ht']. apply lookup_delete_Some in Ht' as [_ Ht'].
    apply Hfresh. eauto.
  - intros e' He'. apply elem_of_app in He' as [He'|He'].
    + destruct (Hlog e' He') as [Hlt Hnone]. split; [done|].
      apply lookup_delete_None. by right.
    + apply list_elem_of_singleton in He' as ->. rewrite He. split.
      * apply Hfresh. eauto.
      * apply lookup_delete_eq.
  - rewrite fmap_app. simpl. apply NoDup_app. split; [done|]. split.
    + intros k Hk Hk'. apply list_elem_of_singleton in Hk'. subst k.
      apply list_elem_of_fmap in Hk as (e' & He'h & He').
      destruct (Hlog e' He') as [_ Hnone]. rewrite <- He'h, He in Hnone. congruence.
    + apply NoDup_singleton.
Qed.

Lemma wf_handleNodeClick (n : string) (s : State) :
  wf s → wf (handleNodeClick n s).
Proof.
  intros Hwf. unfold handleNodeClick.
  destruct (clickTimeouts s !! n) as [h|] eqn:Hn.
  { by apply wf_resolved. }
  destruct Hwf as [Hmap Htimer Hfresh Hlog Honce].
  assert (timers s !! next_handle s = None) as Hnew.
  { destruct (timers s !! next_handle s) as [t|] eqn:Ht; [|done].
    assert (next_handle s < next_handle s)%positive by (apply Hfresh; eauto). lia. }
  split; simpl.
  - intros n' h' Hn'. apply lookup_insert_Some in Hn' as [[<- <-]|[Hne Hn']].
    + eexists. by rewrite lookup_insert_eq.
    + destruct (Hmap n' h' Hn') as (t' & Ht' & Htn'). exists t'. split; [|done].
      rewrite lookup_insert_ne; [done|]. intros <-. congruence.
  - intros h' t' Ht'. apply lookup_insert_Some in Ht' as [[<- <-]|[Hne Ht']]; simpl.
    + by rewrite lookup_insert_eq.
    + rewrite lookup_insert_ne; [by apply Htimer|].
      intros Heq. specialize (Htimer h' t' Ht'). rewrite <- Heq in Htimer. congruence.
  - intros h' [t' Ht']. apply lookup_insert_Some in Ht' as [[<- _]|[_ Ht']]; [lia|].
    assert (h' < next_handle s)%positive by (apply Hfresh; eauto). lia.
  - intros e He. destruct (Hlog e He) as [Hlt Hnone]. split; [lia|].
    rewrite lookup_insert_ne; [done|]. lia.
  - done.
Qed.

Lemma wf_timer_fires (h : positive) (s : State) : wf s → wf (timer_fires h s).
Proof.
  intros Hwf. unfold timer_fires.
  destruct (timers s !! h) as [t|] eqn:Ht; [|done].
  apply wf_resolved; [done| |done]. by apply (wf_timer s Hwf).
Qed.

Lemma wf_step (s : State) (e : Event) : wf s → wf (step s e).
Proof.
  intros Hwf.
  destruct e; [by apply wf_handleNodeClick|by apply wf_timer_fires|].
  by destruct Hwf.
Qed.

Lemma wf_run (evs : list Event) (s : State) : wf s → wf (run evs s).
Proof.
  revert s. induction evs as [|e evs IH]; intros s Hwf; [done|].
  simpl. apply IH. by apply wf_step.
Qed.

(** Events on other nodes and other timers leave a pending click alone. *)
Lemma pending_click_step (n : string) (h : positive) (s : State) (e : Event) :
  wf s → foreign n h e → pending_click n h s → pending_click n h (step s e).
Proof.
  intros Hwf Hf [Hc Ht]. destruct e as [m|k|]; simpl in *; [| |done].
  - unfold handleNodeClick. destruct (clickTimeouts s !! m) as [k|] eqn:Hm.
    + split; simpl.
      * by rewrite lookup_delete_ne.
      * rewrite lookup_delete_ne; [done|]. intros ->.
        destruct (wf_map s Hwf m h Hm) as (t & Ht' & Htn). rewrite Ht in Ht'.
        injection Ht' as <-. simpl in Htn. congruence.
    + assert (h < next_handle s)%positive as Hlt by (apply (wf_fresh s Hwf); eauto).
      split; simpl.
      * by rewrite lookup_insert_ne.
      * rewrite lookup_insert_ne; [done|]. lia.
  - unfold timer_fires. destruct (timers s !! k) as [t|] eqn:Hk; [|done].
    split; simpl.
    + rewrite lookup_delete_ne; [done|]. intros Heq.
      pose proof (wf_timer s Hwf k t Hk) as Hct. rewrite Heq in Hct. congruence.
    + by rewrite lookup_delete_ne.
Qed.

Lemma pending_click_run (n : string) (h : positive) (evs : list Event)
    (s : State) :
  wf s → Forall (foreign n h) evs → pending_click n h s →
  pending_click n h (run evs s).
Proof.
  revert s. induction evs as [|e evs IH]; intros s Hwf Hf Hp; [done|].
  apply Forall_cons in Hf as [He Hf]. simpl. apply IH; [|done|].
  - by apply wf_step.
  - by apply pending_click_step.
Qed.

(** What resolves a pending click: its timer, or a second click. *)
Lemma pending_click_fires (n : string) (h : positive) (s : State) :
  pending_click n h s →
  selectedNode (timer_fires h s) = toggle n (selectedNode s) ∧
  log (timer_fires h s) = log s ++ [Toggle n h].
Proof. intros [_ Ht]. unfold timer_fires. by rewrite Ht. Qed.

Lemma pending_click_second (n : string) (h : positive) (s : State) :
  pending_click n h s →
  selectedNode (handleNodeClick n s) = selectedNode s ∧
  log (handleNodeClick n s) = log s ++ [Navigate n h] ∧
  timer_fires h (handleNodeClick n s) = handleNodeClick n s.
Proof.
  intros [Hc _]. unfold handleNodeClick. rewrite Hc. simpl.
  split; [done|]. split; [done|].
  unfold timer_fires. simpl. by rewrite lookup_delete_eq.
Qed.

(** The updater of the timer callback selects the node unless it is the
    selected one, in which case it clears the selection. *)
Lemma toggle_cases (n : string) (prev : option string) :
  (prev ≠ Some n → toggle n prev = Some n)
  ∧ (prev = Some n → toggle n prev = None).
Proof. unfold toggle. destruct (decide (prev = Some n)); split; done. Qed.

(** C6 (click disambiguation).  From a state where no click on [nodeId]
    is pending: (1) a click whose 300 ms timer then fires changes the
    selection once, selecting the node if it was not the selected one and
    clearing the selection if it was, and navigates nowhere; (2) a click
    followed by a second click before the timer fires navigates once,
    leaves the selection as it was, and cancels the timer, so that it can
    no longer toggle; (3) the same outcomes hold when events on other
    nodes and other timers come in between; (4) in every run, each
    pending click is resolved by at most one effect, a toggle or a
    navigation, never both. *)
Theorem click_disambiguation (s : State) (nodeId : string) :
  wf s → clickTimeouts s !! nodeId = None →
  let h := next_handle s in
  let s1 := handleNodeClick nodeId s in
  timers s1 !! h = Some {| t_node := nodeId; t_delay := 300 |}
  ∧ (let s2 := timer_fires h s1 in
     (selectedNode s ≠ Some nodeId → selectedNode s2 = Some nodeId)
     ∧ (selectedNode s = Some nodeId → selectedNode s2 = None)
     ∧ log s2 = log s ++ [Toggle nodeId h]
     ∧ toggles s2 = toggles s ++ [Toggle nodeId h]
     ∧ navigations s2 = navigations s
     ∧ clickTimeouts s2 !! nodeId = None)
  ∧ (let s2 := handleNodeClick nodeId s1 in
     selectedNode s2 = selectedNode s
     ∧ log s2 = log s ++ [Navigate nodeId h]
     ∧ navigations s2 = navigations s ++ [Navigate nodeId h]
     ∧ toggles s2 = toggles s
     ∧ clickTimeouts s2 !! nodeId = None
     ∧ timer_fires h s2 = s2)
  ∧ (∀ evs, Forall (foreign nodeId h) evs →
       let s1' := run evs s1 in
       ((selectedNode s1' ≠ Some nodeId →
         selectedNode (timer_fires h s1') = Some nodeId)
        ∧ (selectedNode s1' = Some nodeId →
           selectedNode (timer_fires h s1') = None)
        ∧ log (timer_fires h s1') = log s1' ++ [Toggle nodeId h])
       ∧ (selectedNode (handleNodeClick nodeId s1') = selectedNode s1'
          ∧ log (handleNodeClick nodeId s1') = log s1' ++ [Navigate nodeId h]
          ∧ timer_fires h (handleNodeClick nodeId s1') =
            handleNodeClick nodeId s1'))
  ∧ (∀ evs, NoDup (effect_handle <$> log (run evs s))).
Proof.
  intros Hwf Hnone h s1.
  assert (s1 = {| selectedNode := selectedNode s;
                  clickTimeouts := <[nodeId := h]> (clickTimeouts s);
                  timers := <[h := {| t_node := nodeId; t_delay := 300 |}]> (timers s);
                  next_handle := (h + 1)%positive;
                  log := log s |}) as Hs1.
  { subst s1. unfold handleNodeClick. by rewrite Hnone. }
  assert (timers s1 !! h = Some {| t_node := nodeId; t_delay := 300 |}) as Ht1.
  { rewrite Hs1. simpl. apply lookup_insert_eq. }
  assert (clickTimeouts s1 !! nodeId = Some h) as Hc1.
  { rewrite Hs1. simpl. apply lookup_insert_eq. }
  assert (log s1 = log s) as Hl1 by (by rewrite Hs1).
  assert (selectedNode s1 = selectedNode s) as Hsel1 by (by rewrite Hs1).
  split; [done|]. split; [|split; [|split]].
  - unfold timer_fires. rewrite Ht1. simpl. rewrite Hl1, Hsel1.
    unfold toggles, navigations. simpl. rewrite !filter_app.
    split; [apply toggle_cases|]. split; [apply toggle_cases|].
    repeat split; try done.
    + by rewrite app_nil_r.
    + apply lookup_delete_eq.
  - assert (handleNodeClick nodeId s1 =
            {| selectedNode := selectedNode s1;
               clickTimeouts := delete nodeId (clickTimeouts s1);
               timers := delete h (timers s1);
               next_handle := next_handle s1;
               log := log s1 ++ [Navigate nodeId h] |}) as ->.
    { unfold handleNodeClick. by rewrite Hc1. }
    simpl. rewrite Hl1, Hsel1.
    unfold toggles, navigations. simpl. rewrite !filter_app.
    repeat split; try done.
    + by rewrite app_nil_r.
    + apply lookup_delete_eq.
    + unfold timer_fires. simpl. by rewrite lookup_delete_eq.
  - intros evs Hevs s1'.
    assert (pending_click nodeId h s1') as Hp.
    { apply pending_click_run; [by apply wf_handleNodeClick|done|done]. }
    split; [|by apply pending_click_second].
    destruct (pending_click_fires nodeId h s1' Hp) as [-> Hlog].
    split; [apply toggle_cases|]. split; [apply toggle_cases|done].
  - intros evs. apply wf_once. by apply wf_run.
Qed.

(** Node A: a first single click selects it, a later single click clears
    the selection again, and a double click navigates once without
    touching the selection. *)
Lemma click_disambiguation_witness :
  let s1 := handleNodeClick "A" init in
  let s2 := timer_fires 1 s1 in
  let s3 := timer_fires 2 (handleNodeClick "A" s2) in
  (selectedNode s2 = Some "A"%string ∧ log s2 = [Toggle "A" 1])
  ∧ (selectedNode s3 = None
     ∧ log s3 = [Toggle "A" 1; Toggle "A" 2])
  ∧ (selectedNode (handleNodeClick "A" s1) = None
     ∧ log (handleNodeClick "A" s1) = [Navigate "A" 1]).
Proof.
  intros s1 s2 s3.
  destruct (click_disambiguation init "A" wf_init eq_refl)
    as (_ & (Hsel & _ & Hlog & _) & (Hsame & Hnav & _) & _).
  assert (wf s2) as Hwf2.
  { apply wf_timer_fires, wf_handleNodeClick, wf_init. }
  destruct (click_disambiguation s2 "A" Hwf2 eq_refl)
    as (_ & (_ & Hdesel & Hlog2 & _) & _).
  split; [|split].
  - split; [by apply Hsel|exact Hlog].
  - split; [by apply Hdesel; apply Hsel|exact Hlog2].
  - split; [exact Hsame|exact Hnav].
Defined.

End ClickFacts.

(* ================================================================== *)
(** * Superseded responses are discarded *)
(* ================================================================== *)

Section LoaderFacts.

Import Graph Loader.

(** A cancelled run writes nothing, whether it resolves or fails. *)
Lemma resolve_cancelled (g : nat) cm ents (s : State) :
  is_cancelled s g = true → resolve g cm ents s = s.
Proof. intros H. unfold resolve. by rewrite H. Qed.

Lemma reject_cancelled (g : nat) (s : State) :
  is_cancelled s g = true → reject g s = s.
Proof. intros H. unfold reject. by rewrite H. Qed.

Lemma only_latest_live_init : only_latest_live init.
Proof.
  split.
  - intros g _. unfold is_cancelled. simpl. by rewrite lookup_empty.
  - simpl. lia.
Qed.

Lemma only_latest_live_run_effect (s : State) :
  only_latest_live s → only_latest_live (run_effect s).1.
Proof.
  intros [Hs _]. split.
  - intros g Hg. simpl in Hg. unfold is_cancelled. simpl.
    rewrite lookup_insert_ne by done. unfold cleanup.
    destruct (decide (g = runs s)) as [->|Hne].
    + destruct (cancelled s !! runs s) eqn:Hc.
      * by rewrite lookup_insert_eq.
      * by rewrite Hc.
    + specialize (Hs g Hne). unfold is_cancelled in Hs.
      destruct (cancelled s !! runs s); [by rewrite lookup_insert_ne|done].
  - intros _. unfold is_cancelled. simpl. by rewrite lookup_insert_eq.
Qed.

Lemma only_latest_live_resolve g cm ents (s : State) :
  only_latest_live s → only_latest_live (resolve g cm ents s).
Proof. intros Hs. unfold resolve. by destruct (is_cancelled s g). Qed.

Lemma only_latest_live_reject g (s : State) :
  only_latest_live s → only_latest_live (reject g s).
Proof. intros Hs. unfold reject. by destruct (is_cancelled s g). Qed.

Lemma reachable_only_latest_live (s : State) :
  reachable s → only_latest_live s.
Proof.
  induction 1 as [|s _ IH|g cm ents s _ IH|g s _ IH].
  - apply only_latest_live_init.
  - by apply only_latest_live_run_effect.
  - by apply only_latest_live_resolve.
  - by apply only_latest_live_reject.
Qed.

(** The ref holds the version captured by the latest call of
    [fetchData]; every earlier call captured a smaller one. *)
Lemma chart_reachable_versions (c : ChartState) (vs : list nat) :
  chart_reachable c vs →
  (∀ u, u ∈ vs → (u ≤ filterVersion c)%nat)
  ∧ (∀ v rest, vs = v :: rest →
       filterVersion c = v ∧ ∀ u, u ∈ rest → (u < v)%nat).
Proof.
  induction 1 as [|c vs _ [IHle IHhd]|v data count c vs _ [IHle IHhd] Hv
                 |v c vs _ [IHle IHhd] Hv|c c' vs _ [IHle IHhd] Hsame].
  - split; [intros u Hu; by apply elem_of_nil in Hu|done].
  - simpl. split.
    + intros u Hu. apply elem_of_cons in Hu as [->|Hu]; [lia|].
      specialize (IHle u Hu). lia.
    + intros v rest [= <- <-]. split; [done|].
      intros u Hu. specialize (IHle u Hu). lia.
  - assert (filterVersion (fetchData_resolve v data count c) = filterVersion c)
      as ->; [|done].
    unfold fetchData_resolve. by destruct (decide _).
  - assert (filterVersion (fetchData_reject v c) = filterVersion c) as ->; [|done].
    unfold fetchData_reject. by destruct (decide _).
  - by rewrite Hsame.
Qed.

(** C7 (stale-response rejection).  Let generation 2 be the latest
    request issued and generation 1 any request issued before it.  Once
    generation 2 has resolved, a response of generation 1 that arrives
    later changes nothing: the stored rows are those of generation 2 and
    the loading flag is cleared.  This holds for [NetworkGraph] (a
    [cancelled] flag per effect run) and for [NameMentionChart.fetchData]
    (a version counter that every call increments before it captures
    it). *)
Theorem stale_response_rejected :
  (∀ (s : State) (g1 : nat) cm1 ents1 cm2 ents2,
     reachable s → (1 ≤ runs s)%nat → g1 ≠ runs s →
     let s3 := resolve (runs s) cm2 ents2 s in
     let s4 := resolve g1 cm1 ents1 s3 in
     rawCoMentions s4 = cm2 ∧ rawEntities s4 = ents2 ∧ loading s4 = false
     ∧ s4 = s3 ∧ reject g1 s3 = s3)
  ∧ (∀ (c : ChartState) (v2 : nat) (earlier : list nat) (v1 : nat)
       data1 count1 data2 count2,
     chart_reachable c (v2 :: earlier) → v1 ∈ earlier →
     let c3 := fetchData_resolve v2 data2 count2 c in
     let c4 := fetchData_resolve v1 data1 count1 c3 in
     entities c4 = data2 ∧ totalCount c4 = count2 ∧ chart_loading c4 = false
     ∧ c4 = c3 ∧ fetchData_reject v1 c3 = c3).
Proof.
  split.
  - intros s g1 cm1 ents1 cm2 ents2 Hreach Hruns Hg1 s3 s4.
    destruct (reachable_only_latest_live s Hreach) as [Hstale Hlive].
    specialize (Hlive Hruns). specialize (Hstale g1 Hg1).
    assert (s3 = {| rawCoMentions := cm2; rawEntities := ents2;
                    loading := false; cancelled := cancelled s;
                    runs := runs s |}) as Hs3.
    { subst s3. unfold resolve. by rewrite Hlive. }
    assert (is_cancelled s3 g1 = true) as Hstale3 by (by rewrite Hs3).
    assert (s4 = s3) as Hs4 by (by apply resolve_cancelled).
    rewrite Hs4.
    repeat split; try (by rewrite Hs3). by apply reject_cancelled.
  - intros c v2 earlier v1 data1 count1 data2 count2 Hreach Hin c3 c4.
    destruct (chart_reachable_versions c _ Hreach) as [_ Hhd].
    destruct (Hhd v2 earlier eq_refl) as [Hv2 Hlt].
    assert (v1 ≠ filterVersion c) as Hv1.
    { specialize (Hlt v1 Hin). lia. }
    assert (c3 = {| entities := data2; totalCount := count2;
                    hasMore := bool_decide (Z.of_nat (length data2) < count2);
                    chart_loading := false;
                    filterVersion := filterVersion c |}) as Hc3.
    { subst c3. unfold fetchData_resolve.
      destruct (decide _) as [Hne|_]; [by destruct Hne|done]. }
    assert (c4 = c3) as Hc4.
    { subst c4. unfold fetchData_resolve. rewrite Hc3. simpl.
      destruct (decide _) as [_|Heq]; [done|]. destruct Heq. simpl. congruence. }
    rewrite Hc4.
    repeat split; try (by rewrite Hc3).
    unfold fetchData_reject. rewrite Hc3. simpl.
    destruct (decide _) as [Heq|_]; [|done]. simpl in Heq. congruence.
Qed.

(** Generation 1 is issued, then generation 2; generation 2 resolves
    with the pair A-B, then generation 1 resolves with nothing. *)
Lemma stale_response_rejected_witness :
  let s2 := (run_effect (run_effect init).1).1 in
  let c2 := (fetchData_start (fetchData_start chart_init).1).1 in
  rawCoMentions (resolve 1 [] [] (resolve 2 [pair "A" "B" 10 8] [ent "A" 100] s2))
    = [pair "A" "B" 10 8]
  ∧ entities (fetchData_resolve 1 [] 0 (fetchData_resolve 2 [ent "A" 100] 1 c2))
    = [ent "A" 100].
Proof.
  intros s2 c2. split.
  - apply (proj1 stale_response_rejected s2 1%nat [] []
             [pair "A" "B" 10 8] [ent "A" 100]).
    + apply ld_run, ld_run, ld_init.
    + simpl. lia.
    + simpl. lia.
  - apply (proj2 stale_response_rejected c2 2%nat [1%nat] 1%nat
             [] 0 [ent "A" 100] 1).
    + apply (ch_start _ _ (ch_start _ _ ch_init)).
    + apply elem_of_cons. by left.
Defined.

End LoaderFacts.

(* ================================================================== *)
(** * Detail cache: one fetch per identifier, retry after failure *)
(* ================================================================== *)

Section DetailCacheFacts.

Import DetailCache.

Implicit Types (s : State) (i j : string) (o : Origin).
Implicit Types (l : list (Origin * string)).

(** Both completion handlers do the same bookkeeping. *)
Lemma settle_eq o i (r : option (list SectionBreakdown)) s :
  settle o i r s =
  {| breakdownCache := match r with
                       | Some data => <[i := data]> (breakdownCache s)
                       | None => breakdownCache s
                       end;
     pending := pending s ∖ {[i]};
     inflight := remove_first (o, i) (inflight s);
     fetches := fetches s |}.
Proof. by destruct o, r. Qed.

Lemma remove_first_sublist (f : Origin * string) l :
  remove_first f l `sublist_of` l.
Proof.
  induction l as [|g l IH]; simpl; [done|].
  destruct (decide (f = g)); [by apply sublist_cons|by apply sublist_skip].
Qed.

Lemma elem_of_remove_first o i o' j l :
  NoDup (snd <$> l) → (o, i) ∈ l →
  (o', j) ∈ remove_first (o, i) l ↔ (o', j) ∈ l ∧ j ≠ i.
Proof.
  induction l as [|[o1 i1] l IH]; intros Hnd Hin; [by apply elem_of_nil in Hin|].
  rewrite fmap_cons in Hnd. simpl in Hnd. apply NoDup_cons in Hnd as [Hfresh Hnd].
  simpl. destruct (decide ((o, i) = (o1, i1))) as [Heq|Hne].
  - injection Heq as <- <-. rewrite elem_of_cons. split.
    + intros Hj. split; [by right|]. intros ->. apply Hfresh.
      apply list_elem_of_fmap. by exists (o', i).
    + intros [[Heq|Hj] Hne]; [|done]. injection Heq as _ ->. done.
  - apply elem_of_cons in Hin as [Heq|Hin]; [done|].
    rewrite !elem_of_cons, (IH Hnd Hin). split.
    + intros [Heq|[Hj Hji]]; [|by auto].
      injection Heq as -> ->. split; [by left|]. intros ->. apply Hfresh.
      apply list_elem_of_fmap. by exists (o, i).
    + intros [[Heq|Hj] Hji]; auto.
Qed.


Lemma inv_init : inv init.
Proof.
  split; simpl.
  - intros i. split; [set_solver|]. intros [o Ho]. by apply elem_of_nil in Ho.
  - apply NoDup_nil_2.
  - set_solver.
Qed.

Lemma inv_handleRowMouseEnter i s : inv s → inv (handleRowMouseEnter i s).
Proof.
  intros [Hp Ho Hu]. unfold handleRowMouseEnter.
  destruct (decide (needs_fetch s i)) as [[Hc Hnp]|_]; [|done].
  split; simpl.
  - intros j. rewrite elem_of_union, elem_of_singleton, Hp. split.
    + intros [->|[o Hj]]; [exists Hover|exists o]; apply elem_of_app;
        [right; by apply list_elem_of_singleton|by left].
    + intros [o Hj]. apply elem_of_app in Hj as [Hj|Hj]; [right; eauto|].
      apply list_elem_of_singleton in Hj. injection Hj as _ ->. by left.
  - rewrite fmap_app. simpl. apply NoDup_app. split; [done|]. split.
    + intros j Hj Hj'. apply list_elem_of_singleton in Hj' as ->.
      apply Hnp, Hp. apply list_elem_of_fmap in Hj as ([o j] & -> & Hin). eauto.
    + apply NoDup_singleton.
  - intros j Hj. apply elem_of_union in Hj as [Hj|Hj]; [|by apply Hu].
    apply elem_of_singleton in Hj as ->. done.
Qed.

Lemma inv_prefetch_visible (ids : list string) s :
  NoDup ids → inv s → inv (prefetch_visible ids s).
Proof.
  intros Hids [Hp Ho Hu]. unfold prefetch_visible.
  destruct (decide (length ids = 0%nat)); [done|].
  destruct (decide (length _ = 0%nat)); [done|].
  set (uncached := filter (needs_fetch s) ids).
  assert (∀ j, j ∈ uncached ↔ needs_fetch s j ∧ j ∈ ids) as Hunc.
  { intros j. apply list_elem_of_filter. }
  split; simpl.
  - intros j. rewrite elem_of_union, elem_of_list_to_set, Hp. split.
    + intros [Hj|[o Hj]]; [exists Visible|exists o]; apply elem_of_app;
        [right|by left].
      apply list_elem_of_fmap. by exists j.
    + intros [o Hj]. apply elem_of_app in Hj as [Hj|Hj]; [right; eauto|].
      apply list_elem_of_fmap in Hj as (k & Heq & Hk). injection Heq as _ ->.
      by left.
  - rewrite fmap_app, <- list_fmap_compose.
    assert ((snd ∘ (fun j => (Visible, j))) <$> uncached = uncached) as ->.
    { clear. induction uncached as [|k u IH]; [done|]. simpl. f_equal. exact IH. }
    apply NoDup_app. split; [done|]. split.
    + intros j Hj Hj'. apply Hunc in Hj' as [[_ Hnp] _].
      apply Hnp, Hp. apply list_elem_of_fmap in Hj as ([o k] & -> & Hin). eauto.
    + by apply NoDup_filter.
  - intros j Hj. apply elem_of_union in Hj as [Hj|Hj]; [|by apply Hu].
    apply elem_of_list_to_set, Hunc in Hj as [[Hc _] _]. done.
Qed.

Lemma inv_request (r : Request) s : lists_once r → inv s → inv (request r s).
Proof.
  destruct r as [i|ids]; simpl; intros Hwf Hs;
    [by apply inv_handleRowMouseEnter|by apply inv_prefetch_visible].
Qed.

Lemma inv_settle o i (r : option (list SectionBreakdown)) s :
  (o, i) ∈ inflight s → inv s → inv (settle o i r s).
Proof.
  intros Hin [Hp Ho Hu]. rewrite settle_eq. split; simpl.
  - intros j. rewrite elem_of_difference, elem_of_singleton, Hp. split.
    + intros [[o' Hj] Hne]. exists o'. by apply elem_of_remove_first.
    + intros [o' Hj]. apply elem_of_remove_first in Hj as [Hj Hne]; eauto.
  - eapply sublist_NoDup; [exact Ho|]. apply fmap_sublist, remove_first_sublist.
  - intros j Hj. apply elem_of_difference in Hj as [Hj Hne].
    rewrite elem_of_singleton in Hne.
    destruct r; [rewrite lookup_insert_ne by done|]; by apply Hu.
Qed.

Lemma reachable_inv s : reachable_by lists_once s → inv s.
Proof.
  induction 1 as [|r s _ IH Hwf|o i r s _ IH Hin].
  - apply inv_init.
  - by apply inv_request.
  - by apply inv_settle.
Qed.


(** Occurrences of [i] among the identifiers that pass a test. *)
Lemma count_filter (P : string → Prop) `{!∀ j, Decision (P j)}
    (ids : list string) i :
  length (filter (fun j => j = i) (filter P ids)) =
  if decide (P i) then length (filter (fun j => j = i) ids) else 0%nat.
Proof.
  induction ids as [|k ids IH].
  - by destruct (decide (P i)).
  - rewrite (filter_cons P). destruct (decide (P k)) as [Hk|Hk].
    + rewrite !(filter_cons (fun j => j = i)).
      destruct (decide (k = i)) as [->|Hne]; simpl; rewrite IH;
        destruct (decide (P i)); done.
    + rewrite IH, (filter_cons (fun j => j = i)).
      destruct (decide (k = i)) as [->|Hne]; [|done].
      by destruct (decide (P i)).
Qed.

(** New fetches are only issued for identifiers that are neither cached
    nor pending. *)
Lemma request_issues (r : Request) s :
  ∃ new, fetches (request r s) = fetches s ++ new ∧
         (∀ j, j ∈ new → needs_fetch s j) ∧
         match r with
         | RHover i => new = if decide (needs_fetch s i) then [i] else []
         | RVisible ids => new = filter (needs_fetch s) ids
         end.
Proof.
  destruct r as [i|ids]; simpl.
  - unfold handleRowMouseEnter. destruct (decide (needs_fetch s i)) as [Hn|Hn].
    + exists [i]. simpl. split; [done|]. split; [|done].
      intros j Hj. by apply list_elem_of_singleton in Hj as ->.
    + exists []. rewrite app_nil_r. split; [done|]. split; [|done].
      intros j Hj. by apply elem_of_nil in Hj.
  - exists (filter (needs_fetch s) ids).
    split; [|split; [|done]].
    + unfold prefetch_visible.
      destruct (decide (length ids = 0%nat)) as [Hz|_].
      { apply length_zero_iff_nil in Hz. subst. by rewrite app_nil_r. }
      destruct (decide (length _ = 0%nat)) as [Hz|_]; [|done].
      apply length_zero_iff_nil in Hz. rewrite Hz. by rewrite app_nil_r.
    + intros j Hj. by apply list_elem_of_filter in Hj as [Hj _].
Qed.

(** A request fetches an identifier as many times as it lists it when
    the identifier is neither cached nor pending, and not at all
    otherwise. *)
Lemma request_count (r : Request) i s :
  fetch_count i (request r s) =
  (fetch_count i s +
   (if decide (needs_fetch s i) then occurrences i r else 0))%nat.
Proof.
  unfold fetch_count.
  destruct (request_issues r s) as (new & -> & _ & Hnew).
  rewrite filter_app, length_app. f_equal.
  destruct r as [j|ids]; subst new; simpl.
  - destruct (decide (j = i)) as [->|Hne].
    + destruct (decide (needs_fetch s i)); [|done].
      by rewrite filter_cons, decide_True.
    + destruct (decide (needs_fetch s j));
        [rewrite filter_cons, decide_False by done|]; by destruct (decide _).
  - apply (count_filter (needs_fetch s)).
Qed.


(** The cache entry of [i] is only written when a fetch for [i]
    settles. *)
Lemma request_cache (r : Request) s :
  breakdownCache (request r s) = breakdownCache s.
Proof.
  destruct r as [j|ids]; simpl.
  - unfold handleRowMouseEnter. by destruct (decide _).
  - unfold prefetch_visible. by repeat destruct (decide _).
Qed.

Lemma request_inflight (r : Request) i s :
  ¬ needs_fetch s i →
  ∀ o, (o, i) ∈ inflight (request r s) → (o, i) ∈ inflight s.
Proof.
  intros Hn o. destruct r as [j|ids]; simpl.
  - unfold handleRowMouseEnter. destruct (decide (needs_fetch s j)) as [Hj|]; [|done].
    simpl. intros Hin. apply elem_of_app in Hin as [Hin|Hin]; [done|].
    apply list_elem_of_singleton in Hin. injection Hin as _ ->. done.
  - unfold prefetch_visible. repeat destruct (decide _); try done.
    simpl. intros Hin. apply elem_of_app in Hin as [Hin|Hin]; [done|].
    apply list_elem_of_fmap in Hin as (k & Heq & Hk). injection Heq as _ ->.
    by apply list_elem_of_filter in Hk as [Hk _].
Qed.




End DetailCacheFacts.

(* ================================================================== *)
(** * Viewport invariant *)
(* ================================================================== *)

Section ViewportFacts.

Import Stdlib.Floats.PrimFloat Stdlib.Floats.SpecFloat.
Import Stdlib.Floats.FloatOps Stdlib.Floats.FloatAxioms.
Import Binary64 Viewport.

Implicit Types (a b v lo hi : float).

































(** ** Values of binary64 numbers *)












(** ** Clamping, on values *)




Section RealFacts.

Local Open Scope R_scope.





End RealFacts.

(** ** The constants of the viewport *)












(** ** The ratio of height to width *)









End ViewportFacts.

(* ================================================================== *)
(** * Further properties of the graph builder *)
(* ================================================================== *)

Section GraphExtras.

Import Graph.

Lemma length_set_add x (s : list string) :
  (length (set_add x s) ≤ S (length s))%nat.
Proof.
  unfold set_add. destruct (decide (x ∈ s)); [lia|].
  rewrite length_app. simpl. lia.
Qed.

Lemma length_collect_step em minM acc (cm : CoMention) :
  (length (collect_step em minM acc cm) ≤ 2 + length acc)%nat.
Proof.
  unfold collect_step.
  destruct (meets em minM (entity_a_id cm)), (meets em minM (entity_b_id cm)).
  - etrans; [apply length_set_add|].
    pose proof (length_set_add (entity_a_id cm) acc). lia.
  - pose proof (length_set_add (entity_a_id cm) acc). lia.
  - pose proof (length_set_add (entity_b_id cm) acc). lia.
  - lia.
Qed.

Lemma length_collect_from em minM raw acc :
  (length (foldl (collect_step em minM) acc raw)
   ≤ length acc + 2 * length raw)%nat.
Proof.
  revert acc. induction raw as [|cm raw IH]; intros acc; simpl; [lia|].
  etrans; [apply IH|].
  pose proof (length_collect_step em minM acc cm). lia.
Qed.

Lemma meets_mono em (minM minM' : Z) i :
  minM ≤ minM' → meets em minM' i = true → meets em minM i = true.
Proof.
  unfold meets. intros Hle. destruct (em !! i) as [e|]; [|done].
  intros H. apply bool_decide_eq_true in H. apply bool_decide_eq_true. lia.
Qed.

Lemma elem_of_mk_graphLinks_2 ids raw (cm : CoMention) :
  (length raw ≤ 500)%nat → cm ∈ raw →
  entity_a_id cm ∈ ids → entity_b_id cm ∈ ids →
  mk_link cm ∈ mk_graphLinks ids raw.
Proof.
  intros Hlen Hcm Ha Hb. unfold mk_graphLinks.
  apply list_elem_of_fmap. exists cm. split; [done|].
  rewrite take_ge.
  - by apply list_elem_of_filter.
  - etrans; [apply length_filter|done].
Qed.

(** Every built node is drawn with a radius between 5 and 23. *)
Theorem radius_bounds (rawEntities : list EntityMentionCount)
    (rawCoMentions : list CoMention) (minMentions : Z) (n : GraphNode) :
  0 ≤ minMentions →
  n ∈ nodes (build_graph rawEntities rawCoMentions minMentions) →
  (5 <= radius n <= 23)%R.
Proof.
  intros Hmin Hn.
  pose proof Hn as Hn'.
  apply nodes_build_graph in Hn' as (i & e & _ & He & Heq).
  set (g := build_graph rawEntities rawCoMentions minMentions) in *.
  set (mx := max_with_1 (mentions <$> nodes g)) in *.
  assert (total_mentions e ≤ mx) as Hub.
  { apply max_with_1_ub. apply list_elem_of_fmap. exists n. split; [|done].
    by rewrite Heq. }
  assert (1 ≤ mx) as Hmx by apply max_with_1_ge_1.
  rewrite Heq. simpl. unfold node_radius.
  assert (0 < log2 (IZR (mx + 1)))%R as HL.
  { apply log2_pos. apply (IZR_lt 1). lia. }
  assert (0 <= log2 (IZR (total_mentions e + 1)))%R as H0.
  { replace 0%R with (log2 1).
    - apply log2_le; [lra|]. apply (IZR_le 1). lia.
    - unfold log2. rewrite ln_1. lra. }
  assert (log2 (IZR (total_mentions e + 1)) <= log2 (IZR (mx + 1)))%R as H1.
  { apply log2_le; [apply (IZR_lt 0); lia|apply IZR_le; lia]. }
  assert (0 <= log2 (IZR (total_mentions e + 1)) / log2 (IZR (mx + 1)) <= 1)%R
    as [Hq0 Hq1].
  { split.
    - apply Rmult_le_pos; [done|]. left. by apply Rinv_0_lt_compat.
    - apply (Rmult_le_reg_r (log2 (IZR (mx + 1)))); [done|].
      unfold Rdiv. rewrite Rmult_assoc, Rinv_l by lra. lra. }
  lra.
Qed.

Lemma radius_bounds_witness :
  (5 <= radius (mk_node 100 "B" (ent "B" 50)) <= 23)%R.
Proof.
  apply (radius_bounds [ent "A" 100; ent "B" 50] [pair "A" "B" 10 8] 10).
  - lia.
  - assert (nodes (build_graph [ent "A" 100; ent "B" 50] [pair "A" "B" 10 8] 10)
            = [mk_node 100 "A" (ent "A" 100); mk_node 100 "B" (ent "B" 50)])
      as -> by reflexivity.
    apply elem_of_cons. right. apply elem_of_cons. by left.
Defined.

(** The identifiers of the built nodes are pairwise distinct. *)
Theorem node_ids_distinct (rawEntities : list EntityMentionCount)
    (rawCoMentions : list CoMention) (minMentions : Z) :
  NoDup (node_ids (build_graph rawEntities rawCoMentions minMentions)).
Proof.
  rewrite node_ids_build_graph.
  destruct (decide (rawEntities = [])); [apply NoDup_nil_2|].
  apply NoDup_collect_nodeIds.
Qed.

(** Size caps of the built graph: at most 500 links, never more links
    than raw pairs, and at most two nodes per raw pair. *)
Theorem built_graph_size (rawEntities : list EntityMentionCount)
    (rawCoMentions : list CoMention) (minMentions : Z) :
  let g := build_graph rawEntities rawCoMentions minMentions in
  (length (links g) ≤ 500 ∧ length (links g) ≤ length rawCoMentions
   ∧ length (nodes g) ≤ 2 * length rawCoMentions)%nat.
Proof.
  intros g. subst g.
  assert (length (nodes (build_graph rawEntities rawCoMentions minMentions))
          ≤ 2 * length rawCoMentions)%nat as Hnodes.
  { rewrite <- (length_fmap node_id). fold (node_ids (build_graph rawEntities rawCoMentions minMentions)).
    rewrite node_ids_build_graph.
    destruct (decide (rawEntities = [])); [simpl; lia|].
    unfold collect_nodeIds.
    etrans; [apply length_collect_from|]. simpl. lia. }
  split; [|split; [|done]].
  - destruct (build_graph_cases rawEntities rawCoMentions minMentions)
      as [He|(_ & _ & He)]; rewrite He; simpl; [lia|].
    unfold mk_graphLinks. rewrite length_fmap, length_take. lia.
  - destruct (build_graph_cases rawEntities rawCoMentions minMentions)
      as [He|(_ & _ & He)]; rewrite He; simpl; [lia|].
    unfold mk_graphLinks. rewrite length_fmap, length_take.
    etrans; [apply Nat.le_min_r|apply length_filter].
Qed.

(** Raising the mention threshold only removes nodes; with at most 500
    raw pairs it also only removes links. *)
Theorem threshold_monotone (rawEntities : list EntityMentionCount)
    (rawCoMentions : list CoMention) (minMentions minMentions' : Z) :
  minMentions ≤ minMentions' →
  let g := build_graph rawEntities rawCoMentions minMentions in
  let g' := build_graph rawEntities rawCoMentions minMentions' in
  (∀ i, i ∈ node_ids g' → i ∈ node_ids g)
  ∧ ((length rawCoMentions ≤ 500)%nat → ∀ l, l ∈ links g' → l ∈ links g).
Proof.
  intros Hle g g'. subst g g'.
  assert (∀ i, i ∈ node_ids (build_graph rawEntities rawCoMentions minMentions') →
               i ∈ node_ids (build_graph rawEntities rawCoMentions minMentions))
    as Hnodes.
  { intros i. rewrite !elem_of_node_ids. intros (Hne & Hm & Hcm).
    split; [done|]. split; [|done]. by apply (meets_mono _ _ minMentions'). }
  split; [done|].
  intros Hlen l Hl.
  destruct (decide (rawEntities = [])) as [->|Hne].
  { rewrite build_graph_no_entities in Hl. by apply elem_of_nil in Hl. }
  rewrite links_build_graph in Hl |- * by done.
  apply elem_of_mk_graphLinks in Hl as (cm & Hcm & -> & Ha & Hb).
  apply elem_of_mk_graphLinks_2; [done|done| |].
  - apply elem_of_collect_nodeIds. apply elem_of_collect_nodeIds in Ha as [Hm Hx].
    split; [|done]. by apply (meets_mono _ _ minMentions').
  - apply elem_of_collect_nodeIds. apply elem_of_collect_nodeIds in Hb as [Hm Hx].
    split; [|done]. by apply (meets_mono _ _ minMentions').
Qed.

Lemma threshold_monotone_witness :
  let es := [ent "A" 100; ent "B" 50; ent "C" 20] in
  let raw := [pair "A" "B" 10 8; pair "B" "C" 4 2] in
  "A"%string ∈ node_ids (build_graph es raw 10).
Proof.
  intros es raw.
  assert (10 ≤ 30) as Hle by lia.
  apply (proj1 (threshold_monotone es raw 10 30 Hle)).
  vm_compute. apply elem_of_cons. by left.
Defined.

End GraphExtras.

(* ================================================================== *)
(** * Highlighting *)
(* ================================================================== *)

Section HighlightFacts.

Import Graph Highlight.

Local Open Scope R_scope.

Lemma elem_of_connect_step a (set : gset string) (l : GraphLink) j :
  j ∈ connect_step a set l ↔ j ∈ set ∨ neighbour_via a j l.
Proof.
  unfold connect_step, neighbour_via.
  destruct (decide (sourceId l = a)) as [Hs|Hs];
    destruct (decide (targetId l = a)) as [Ht|Ht];
    rewrite ?elem_of_union, ?elem_of_singleton; intuition congruence.
Qed.

Lemma elem_of_connect_from a (links : list GraphLink) (set : gset string) j :
  j ∈ foldl (connect_step a) set links ↔
  j ∈ set ∨ ∃ l, l ∈ links ∧ neighbour_via a j l.
Proof.
  revert set. induction links as [|l links IH]; intros set; simpl.
  - split; [auto|]. intros [?|(l & Hl & _)]; [done|]. by apply elem_of_nil in Hl.
  - rewrite IH, elem_of_connect_step. split.
    + intros [[?|Hn]|(l' & Hl' & Hn)]; auto.
      * right. exists l. split; [left|done].
      * right. exists l'. split; [by right|done].
    + intros [?|(l' & Hl' & Hn)]; auto.
      apply elem_of_cons in Hl' as [->|Hl']; [auto|].
      right. by exists l'.
Qed.

Lemma elem_of_connectedIds a (links : list GraphLink) j :
  a ≠ EmptyString →
  j ∈ connectedIds (Some a) links ↔ ∃ l, l ∈ links ∧ neighbour_via a j l.
Proof.
  intros Ha. unfold connectedIds, truthy.
  rewrite bool_decide_eq_false_2 by done. simpl.
  rewrite elem_of_connect_from. split; [|auto].
  intros [H|H]; [|done]. by apply not_elem_of_empty in H.
Qed.

Lemma truthy_Some (active : option string) :
  truthy active = true → ∃ a, active = Some a ∧ a ≠ EmptyString.
Proof.
  destruct active as [a|]; [|done]. simpl. intros H. exists a. split; [done|].
  apply negb_true_iff, bool_decide_eq_false in H. done.
Qed.

(** A node keeps full opacity exactly when nothing is active, or it is
    the active node, or a link joins it to the active node; every other
    node is dimmed to 0.12. *)
Theorem node_opacity_spec (active : option string) (links : list GraphLink)
    (i : string) :
  (getNodeOpacity active links i = 1 ∨ getNodeOpacity active links i = 0.12)
  ∧ (getNodeOpacity active links i = 1 ↔
     truthy active = false ∨ active = Some i
     ∨ ∃ a l, active = Some a ∧ l ∈ links ∧ neighbour_via a i l).
Proof.
  unfold getNodeOpacity. destruct (truthy active) eqn:Ht; cbn [negb].
  2:{ split; [by left|]. split; auto. }
  apply truthy_Some in Ht as (a & -> & Ha).
  destruct (bool_decide (Some i = Some a)) eqn:Hia; cbn [orb].
  { apply bool_decide_eq_true in Hia. split; [by left|]. split; [|done].
    intros _. right. left. done. }
  apply bool_decide_eq_false in Hia.
  destruct (bool_decide (i ∈ connectedIds (Some a) links)) eqn:Hc.
  - apply bool_decide_eq_true, elem_of_connectedIds in Hc as (l & Hl & Hn); [|done].
    split; [by left|]. split; [|done]. intros _. right. right. eauto.
  - apply bool_decide_eq_false in Hc. split; [by right|]. split; [lra|].
    intros [?|[Heq|(a' & l & Heq & Hl & Hn)]]; [done|congruence|].
    injection Heq as <-. destruct Hc. apply elem_of_connectedIds; eauto.
Qed.

(** With an active node, a link is drawn highlighted (gold, opacity 0.8)
    exactly when it touches the active node, and then both of its
    endpoints keep full opacity; every other link is dimmed. *)
Theorem highlighted_links_join_lit_nodes (active : option string)
    (links : list GraphLink) (l : GraphLink) :
  truthy active = true → l ∈ links →
  (getLinkColor active l = "#D4A843"%string ↔ incident active l = true)
  ∧ (incident active l = true →
     getLinkOpacity active links l = 0.8
     ∧ getNodeOpacity active links (sourceId l) = 1
     ∧ getNodeOpacity active links (targetId l) = 1)
  ∧ (incident active l = false →
     getLinkOpacity active links l = 0.04
     ∧ getLinkColor active l = "#1a2535"%string).
Proof.
  intros Ht Hl. unfold getLinkColor, getLinkOpacity. rewrite Ht. simpl.
  split; [|split].
  - destruct (incident active l); split; done.
  - intros Hinc. rewrite Hinc. split; [done|].
    pose proof Ht as Ht'. apply truthy_Some in Ht' as (a & -> & Ha).
    unfold incident in Hinc. apply orb_true_iff in Hinc.
    split; apply node_opacity_spec; right.
    + destruct Hinc as [H|H]; apply bool_decide_eq_true in H.
      * by left.
      * right. injection H as H. exists a, l. split; [done|]. split; [done|].
        right. done.
    + destruct Hinc as [H|H]; apply bool_decide_eq_true in H.
      * right. injection H as H. exists a, l. split; [done|]. split; [done|].
        left. done.
      * by left.
  - intros Hinc. by rewrite Hinc.
Qed.

Lemma highlighted_links_join_lit_nodes_witness :
  let l := mk_link (pair "A" "B" 10 8) in
  getNodeOpacity (Some "A"%string) [l] "B" = 1.
Proof.
  intros l.
  destruct (highlighted_links_join_lit_nodes (Some "A"%string) [l] l)
    as (_ & H & _).
  - reflexivity.
  - apply elem_of_cons. by left.
  - apply H. reflexivity.
Defined.

(** Neighbourhood is symmetric: [b] is highlighted as a neighbour when
    [a] is active exactly when [a] is when [b] is active. *)
Theorem connectedIds_symmetric (links : list GraphLink) (a b : string) :
  a ≠ EmptyString → b ≠ EmptyString →
  b ∈ connectedIds (Some a) links ↔ a ∈ connectedIds (Some b) links.
Proof.
  intros Ha Hb. rewrite !elem_of_connectedIds by done.
  unfold neighbour_via. split; intros (l & Hl & H); exists l; tauto.
Qed.

Lemma connectedIds_symmetric_witness :
  "A"%string ∈ connectedIds (Some "B"%string) [mk_link (pair "A" "B" 10 8)].
Proof.
  apply (proj1 (connectedIds_symmetric [mk_link (pair "A" "B" 10 8)] "A" "B"
                  ltac:(done) ltac:(done))).
  vm_compute. set_solver.
Defined.

(** Every neighbour that gets highlighted in a built graph is one of its
    nodes. *)
Theorem connectedIds_are_nodes (rawEntities : list EntityMentionCount)
    (rawCoMentions : list CoMention) (minMentions : Z)
    (active : option string) (j : string) :
  let g := build_graph rawEntities rawCoMentions minMentions in
  j ∈ connectedIds active (links g) → j ∈ node_ids g.
Proof.
  intros g Hj. subst g.
  destruct active as [a|]; [|by apply not_elem_of_empty in Hj].
  destruct (decide (a = EmptyString)) as [->|Ha].
  { by apply not_elem_of_empty in Hj. }
  apply elem_of_connectedIds in Hj as (l & Hl & Hn); [|done].
  destruct (decide (rawEntities = [])) as [->|Hne].
  { rewrite build_graph_no_entities in Hl. by apply elem_of_nil in Hl. }
  rewrite links_build_graph in Hl by done.
  apply elem_of_mk_graphLinks in Hl as (cm & _ & -> & Hca & Hcb).
  rewrite node_ids_build_graph, decide_False by done.
  destruct Hn as [[_ <-]|[_ <-]]; done.
Qed.

Lemma connectedIds_are_nodes_witness :
  "B"%string ∈
    node_ids (build_graph [ent "A" 100; ent "B" 50] [pair "A" "B" 10 8] 10).
Proof.
  apply (connectedIds_are_nodes [ent "A" 100; ent "B" 50] [pair "A" "B" 10 8]
           10 (Some "A"%string)).
  vm_compute. set_solver.
Defined.

Lemma ratio_to_max (xs : list Z) (z : Z) :
  (0 ≤ z)%Z → z ∈ xs → 0 <= IZR z / IZR (max_with_1 xs) <= 1.
Proof.
  intros Hz Hin.
  pose proof (max_with_1_ge_1 xs) as Hge. pose proof (max_with_1_ub xs z Hin) as Hub.
  assert (0 < IZR (max_with_1 xs)) as Hpos by (apply (IZR_lt 0); lia).
  assert (0 <= IZR z) as Hz' by (apply (IZR_le 0); lia).
  assert (IZR z <= IZR (max_with_1 xs)) as Hle by (by apply IZR_le).
  split.
  - apply Rmult_le_pos; [done|]. left. by apply Rinv_0_lt_compat.
  - apply (Rmult_le_reg_r (IZR (max_with_1 xs))); [done|].
    unfold Rdiv. rewrite Rmult_assoc, Rinv_l by lra. lra.
Qed.

(** Drawing bounds of a link with non-negative counts: without an active
    node its opacity lies in [0.2, 0.7]; its stroke is between 1 and 5
    wide; its hit target is at least 12 wide and 8 wider than the stroke. *)
Theorem link_drawing_bounds (links : list GraphLink) (l : GraphLink) :
  l ∈ links → (0 ≤ sharedDocs l)%Z → (0 ≤ coOccurrences l)%Z →
  0.2 <= getLinkOpacity None links l <= 0.7
  ∧ 1 <= thickness links l <= 5
  ∧ 12 <= hit_width links l
  ∧ thickness links l + 8 <= hit_width links l.
Proof.
  intros Hl Hs Hc.
  assert (0 <= IZR (sharedDocs l) / IZR (maxShared links) <= 1) as Hrs.
  { apply ratio_to_max; [done|]. apply list_elem_of_fmap. eauto. }
  assert (0 <= IZR (coOccurrences l) / IZR (maxCo links) <= 1) as Hrc.
  { apply ratio_to_max; [done|]. apply list_elem_of_fmap. eauto. }
  unfold getLinkOpacity, hit_width, thickness. simpl.
  split; [lra|]. split; [lra|].
  split; [apply Rmax_r|apply Rmax_l].
Qed.

Lemma link_drawing_bounds_witness :
  let l := mk_link (pair "A" "B" 10 8) in
  1 <= thickness [l] l <= 5.
Proof.
  intros l.
  destruct (link_drawing_bounds [l] l) as (_ & H & _).
  - apply elem_of_cons. by left.
  - simpl. lia.
  - simpl. lia.
  - exact H.
Defined.

(** A drawn label never exceeds its limit (20 code units for a node, 16
    for a chart row); a short name is shown unchanged and a long one
    keeps its first 18 (14) code units. *)
Theorem labels_truncated {U : Type} (ellipsis : U) (name : list U) :
  ((length (node_label ellipsis name) ≤ 20)%nat
   ∧ ((length name ≤ 20)%nat → node_label ellipsis name = name)
   ∧ ((20 < length name)%nat →
      node_label ellipsis name = take 18 name ++ [ellipsis]
      ∧ length (node_label ellipsis name) = 19%nat))
  ∧ ((length (row_label ellipsis name) ≤ 16)%nat
     ∧ ((length name ≤ 16)%nat → row_label ellipsis name = name)
     ∧ ((16 < length name)%nat →
        row_label ellipsis name = take 14 name ++ [ellipsis]
        ∧ length (row_label ellipsis name) = 15%nat)).
Proof.
  unfold node_label, row_label. split.
  - destruct (decide (20 < length name)%nat) as [Hlt|Hge].
    + rewrite length_app, length_take.
      change (length [ellipsis]) with 1%nat.
      split; [lia|]. split; [lia|]. intros _. split; [done|lia].
    + split; [lia|]. split; [done|]. lia.
  - destruct (decide (16 < length name)%nat) as [Hlt|Hge].
    + rewrite length_app, length_take.
      change (length [ellipsis]) with 1%nat.
      split; [lia|]. split; [lia|]. intros _. split; [done|lia].
    + split; [lia|]. split; [done|]. lia.
Qed.

Lemma labels_truncated_witness :
  node_label 8230%N [1; 2; 3]%N = [1; 2; 3]%N.
Proof.
  apply (proj1 (proj2 (proj1 (labels_truncated 8230%N [1; 2; 3]%N)))).
  simpl. lia.
Defined.

End HighlightFacts.

(* ================================================================== *)
(** * Section colours and labels *)
(* ================================================================== *)

Section SectionsFacts.

Import Stdlib.Strings.Ascii.
Import Graph Sections.

Example cleanSectionLabel_court :
  cleanSectionLabel "/epstein/court-records/" = "Court Records"%string.
Proof. reflexivity. Qed.

Example cleanSectionLabel_empty : cleanSectionLabel "/epstein/" = "Other"%string.
Proof. reflexivity. Qed.

Example getSectionColor_doj :
  getSectionColor "/epstein/DOJ-Disclosures/" = "#4a8bc2"%string.
Proof. reflexivity. Qed.

Lemma append_cons (a : ascii) (k post : string) :
  String.append (String a k) post = String a (String.append k post).
Proof. reflexivity. Qed.

Lemma append_nil (post : string) : String.append EmptyString post = post.
Proof. reflexivity. Qed.

Lemma prefix_iff (key s : string) :
  String.prefix key s = true ↔ ∃ post, s = String.append key post.
Proof.
  revert s. induction key as [|a key IH]; intros s; simpl.
  - destruct s; split; eauto.
  - destruct s as [|b s]; simpl.
    + split; [done|]. intros [post Hp]. by rewrite append_cons in Hp.
    + destruct (ascii_dec a b) as [->|Hne].
      * rewrite IH. split; intros [post Hp]; exists post.
        -- rewrite append_cons. by rewrite Hp.
        -- rewrite append_cons in Hp. by injection Hp.
      * split; [done|]. intros [post Hp]. rewrite append_cons in Hp. congruence.
Qed.

Lemma includes_unfold (s key : string) :
  includes s key =
  String.prefix key s ||
  match s with
  | EmptyString => false
  | String _ s' => includes s' key
  end.
Proof. by destruct s. Qed.

Lemma includes_iff (s key : string) :
  includes s key = true ↔ is_substring key s.
Proof.
  unfold is_substring. induction s as [|c s IH].
  - rewrite includes_unfold, orb_false_r, prefix_iff. split.
    + intros [post Hp]. exists EmptyString, post. done.
    + intros ([|d pre] & post & Hp);
        rewrite ?append_cons, ?append_nil in Hp; [eauto|done].
  - rewrite includes_unfold, orb_true_iff, prefix_iff, IH. split.
    + intros [[post Hp]|(pre & post & Hp)].
      * exists EmptyString, post. done.
      * exists (String c pre), post. rewrite append_cons. by rewrite Hp.
    + intros ([|d pre] & post & Hp); rewrite ?append_cons, ?append_nil in Hp.
      * left. eauto.
      * right. injection Hp as -> Hp. eauto.
Qed.

Lemma getNodeColor_with_cons (lower : string → string) (sec : string)
    (rest : list string) :
  getNodeColor_with lower (sec :: rest) =
  match List.find (fun kc => includes (lower sec) (fst kc)) SECTION_COLORS with
  | Some kc => snd kc
  | None => getNodeColor_with lower rest
  end.
Proof. reflexivity. Qed.

Lemma getNodeColor_instance (secs : list string) :
  getNodeColor secs = getNodeColor_with toLowerCase secs.
Proof.
  induction secs as [|sec secs IH]; [done|].
  rewrite getNodeColor_with_cons, <- IH. reflexivity.
Qed.

Lemma palette_not_default (kc : string * string) :
  In kc SECTION_COLORS → snd kc ≠ "#8892a4"%string.
Proof.
  simpl. intros [<-|[<-|[<-|[<-|[<-|[]]]]]]; done.
Qed.

(** [List.find] returns the first element that passes the test. *)
Lemma find_first {T} (f : T → bool) (l : list T) (x : T) :
  List.find f l = Some x →
  ∃ before after, l = before ++ x :: after ∧ f x = true
                  ∧ ∀ y, y ∈ before → f y = false.
Proof.
  induction l as [|y l IH]; [done|]. simpl.
  destruct (f y) eqn:Hy.
  - intros [= ->]. exists [], l. split; [done|]. split; [done|].
    intros z Hz. by apply elem_of_nil in Hz.
  - intros Hf. destruct (IH Hf) as (before & after & -> & Hx & Hb).
    exists (y :: before), after. split; [done|]. split; [done|].
    intros z Hz. apply elem_of_cons in Hz as [->|Hz]; [done|]. by apply Hb.
Qed.

(** No key occurs in a section label, after lower-casing. *)
Lemma find_none_iff (lowered : string) :
  List.find (fun kc => includes lowered (fst kc)) SECTION_COLORS = None ↔
  ∀ key, key ∈ node_color_keys → ¬ is_substring key lowered.
Proof.
  split.
  - intros Hf key Hkey Hsub.
    apply list_elem_of_fmap in Hkey as (kc & -> & Hkc).
    apply list_elem_of_In in Hkc.
    pose proof (List.find_none _ _ Hf kc Hkc) as Hno. simpl in Hno.
    apply includes_iff in Hsub. congruence.
  - intros Hall.
    destruct (List.find _ SECTION_COLORS) as [kc|] eqn:Hf; [|done].
    apply List.find_some in Hf as [Hin Hinc]. exfalso.
    apply (Hall (fst kc)).
    + apply list_elem_of_fmap. exists kc. split; [done|].
      by apply list_elem_of_In.
    + by apply includes_iff.
Qed.

(** Whatever [toLowerCase] does to a label: a node is drawn in the
    default grey exactly when none of its lower-cased section labels
    contains one of the keys court, doj, foia, house, fbi.  Otherwise the
    first section whose lower-cased label contains a key decides the
    colour alone, whatever sections come before or after it: the colour
    is that of the first palette entry, in the order of the table, whose
    key the label contains, and it is not the default grey.  The
    embedding used by the graph builder is the instance at the ASCII
    lower-casing. *)
Theorem getNodeColor_default_iff (lower : string → string)
    (secs : list string) :
  getNodeColor secs = getNodeColor_with toLowerCase secs
  ∧ (getNodeColor_with lower secs = "#8892a4"%string ↔
     ∀ sec key, sec ∈ secs → key ∈ node_color_keys →
                ¬ is_substring key (lower sec))
  ∧ (∀ pre sec rest key,
       secs = pre ++ sec :: rest →
       (∀ p k, p ∈ pre → k ∈ node_color_keys → ¬ is_substring k (lower p)) →
       key ∈ node_color_keys → is_substring key (lower sec) →
       getNodeColor_with lower secs = getNodeColor_with lower [sec]
       ∧ getNodeColor_with lower secs ≠ "#8892a4"%string
       ∧ ∃ before k c after,
           SECTION_COLORS = before ++ (k, c) :: after
           ∧ (∀ kc, kc ∈ before → ¬ is_substring (fst kc) (lower sec))
           ∧ is_substring k (lower sec)
           ∧ getNodeColor_with lower secs = c).
Proof.
  split; [apply getNodeColor_instance|]. split.
  - induction secs as [|sec secs IH].
    + split; [|done]. intros _ sec key Hsec. by apply elem_of_nil in Hsec.
    + rewrite getNodeColor_with_cons.
      destruct (List.find (fun kc => includes (lower sec) (fst kc))
                          SECTION_COLORS) as [kc|] eqn:Hf.
      * pose proof Hf as Hf'. apply List.find_some in Hf as [Hin Hinc].
        split; [intros Heq; by apply palette_not_default in Hin|].
        intros Hall. exfalso.
        assert (List.find (fun kc => includes (lower sec) (fst kc))
                          SECTION_COLORS = None) as Hnone; [|congruence].
        apply find_none_iff. intros key Hkey. apply Hall; [by left|done].
      * rewrite IH. split.
        -- intros Hall sec' key Hsec Hkey.
           apply elem_of_cons in Hsec as [->|Hsec]; [|by apply Hall].
           by apply (proj1 (find_none_iff (lower sec)) Hf).
        -- intros Hall sec' key Hsec. apply Hall. by right.
  - intros pre sec rest key -> Hpre Hkey Hsub.
    assert (getNodeColor_with lower (pre ++ sec :: rest) =
            getNodeColor_with lower (sec :: rest)) as ->.
    { induction pre as [|p pre IH]; [done|].
      rewrite <- app_comm_cons, getNodeColor_with_cons.
      assert (List.find (fun kc => includes (lower p) (fst kc))
                        SECTION_COLORS = None) as ->.
      { apply find_none_iff. intros k Hk. apply Hpre; [by left|done]. }
      apply IH. intros p' k Hp'. apply Hpre. by right. }
    rewrite !getNodeColor_with_cons.
    destruct (List.find (fun kc => includes (lower sec) (fst kc))
                        SECTION_COLORS) as [[k c]|] eqn:Hf.
    + split; [done|]. split.
      * apply List.find_some in Hf as [Hin _].
        apply (palette_not_default _ Hin).
      * apply find_first in Hf as (before & after & Heq & Hk & Hb).
        exists before, k, c, after. split; [done|]. split; [|split; [|done]].
        -- intros kc Hkc Hs. apply includes_iff in Hs.
           specialize (Hb kc Hkc). simpl in Hb. congruence.
        -- by apply includes_iff.
    + exfalso. by apply (proj1 (find_none_iff (lower sec)) Hf key).
Qed.

(** Sections Misc, DOJ Disclosures, Court Records: the first label has
    no key, so the second one decides, and the node is drawn in the
    colour of key doj. *)
Lemma getNodeColor_default_iff_witness :
  let secs := ["Misc"; "DOJ Disclosures"; "Court Records"]%string in
  getNodeColor secs = getNodeColor ["DOJ Disclosures"%string]
  ∧ getNodeColor secs = "#4a8bc2"%string.
Proof.
  intros secs.
  destruct (getNodeColor_default_iff toLowerCase secs) as (Hinst & _ & Hfirst).
  destruct (Hfirst ["Misc"%string] "DOJ Disclosures"%string
              ["Court Records"%string] "doj"%string) as (Heq & _ & _).
  - reflexivity.
  - intros p k Hp Hk Hsub. apply includes_iff in Hsub.
    apply list_elem_of_singleton in Hp as ->.
    unfold node_color_keys in Hk. simpl in Hk.
    repeat (apply elem_of_cons in Hk as [->|Hk]; [discriminate Hsub|]).
    by apply elem_of_nil in Hk.
  - unfold node_color_keys. simpl.
    apply elem_of_cons. right. apply elem_of_cons. by left.
  - exists EmptyString, " disclosures"%string. reflexivity.
  - split; [|reflexivity].
    rewrite Hinst, Heq. symmetry. apply getNodeColor_instance.
Defined.

(** ** [getSectionColor] *)

Lemma strip_prefix_Some (p s r : string) :
  strip_prefix p s = Some r → s = String.append p r.
Proof.
  revert s. induction p as [|a p IH]; intros s; simpl.
  - destruct s; intros [= <-]; done.
  - destruct s as [|b s]; [done|].
    destruct (Ascii.eqb a b) eqn:Hab; [|done].
    apply Ascii.eqb_eq in Hab as ->. intros Hr.
    rewrite append_cons. by rewrite <- (IH s Hr).
Qed.

Lemma replace_trailing_slash_cases (s : string) :
  replace_trailing_slash s = s ∨
  s = String.append (replace_trailing_slash s) "/".
Proof.
  induction s as [|c s IH]; [by left|].
  destruct s as [|d s].
  - simpl. destruct (Ascii.eqb c "/") eqn:Hc; [|by left].
    apply Ascii.eqb_eq in Hc as ->. by right.
  - change (replace_trailing_slash (String c (String d s)))
      with (String c (replace_trailing_slash (String d s))).
    destruct IH as [->|IH]; [by left|]. right.
    rewrite append_cons. by rewrite <- IH.
Qed.

Lemma prefix_app_slash (key k : string) :
  ¬ occurs "/" key →
  String.prefix key (String.append k "/") = String.prefix key k.
Proof.
  revert key. induction k as [|b k IH]; intros key Hno.
  - destruct key as [|a key]; [done|]. simpl.
    destruct (ascii_dec a "/") as [->|_]; [|done].
    destruct Hno. by left.
  - destruct key as [|a key]; [done|]. rewrite append_cons. simpl.
    destruct (ascii_dec a b); [|done]. apply IH.
    intros Ho. apply Hno. by right.
Qed.

Lemma includes_app_slash (key k : string) :
  ¬ occurs "/" key →
  includes (String.append k "/") key = includes k key.
Proof.
  intros Hno. induction k as [|b k IH].
  - rewrite append_nil.
    rewrite (includes_unfold "/"), (includes_unfold EmptyString).
    rewrite <- (prefix_app_slash key EmptyString Hno), append_nil.
    by destruct (String.prefix key "/").
  - rewrite append_cons, (includes_unfold (String b _)),
      (includes_unfold (String b k)).
    rewrite <- append_cons, (prefix_app_slash key (String b k) Hno).
    by rewrite IH.
Qed.

(** The keys tested by [getSectionColor]. *)
Lemma color_of_key_ext (k1 k2 : string) :
  (∀ key, key ∈ ["court"; "doj"; "disclosure"; "foia"; "house"; "oversight"]%string →
          includes k1 key = includes k2 key) →
  color_of_key k1 = color_of_key k2.
Proof.
  intros H. unfold color_of_key.
  rewrite (H "court"%string), (H "doj"%string), (H "disclosure"%string),
    (H "foia"%string), (H "house"%string), (H "oversight"%string);
    [done|..]; repeat first [by left | right].
Qed.

Lemma section_key_cases (key : string) :
  key ∈ ["court"; "doj"; "disclosure"; "foia"; "house"; "oversight"]%string →
  (¬ occurs "/" key) ∧
  ∀ k, includes (String.append "/epstein/" k) key = includes k key.
Proof.
  intros H.
  repeat (apply elem_of_cons in H as [->|H];
          [split; [simpl; intuition discriminate|intros k; reflexivity]|]).
  by apply elem_of_nil in H.
Qed.

Lemma color_of_key_strip_prefix (k : string) :
  color_of_key (replace_epstein_prefix k) = color_of_key k.
Proof.
  unfold replace_epstein_prefix.
  destruct (strip_prefix "/epstein/" k) as [r|] eqn:Hs; [|done]. simpl.
  apply strip_prefix_Some in Hs as ->.
  apply color_of_key_ext. intros key Hkey.
  symmetry. by apply section_key_cases.
Qed.

Lemma color_of_key_strip_slash (k : string) :
  color_of_key (replace_trailing_slash k) = color_of_key k.
Proof.
  destruct (replace_trailing_slash_cases k) as [->|Hk]; [done|].
  rewrite Hk at 2. apply color_of_key_ext. intros key Hkey.
  symmetry. apply includes_app_slash. by apply section_key_cases.
Qed.

Lemma toLowerCase_app (a b : string) :
  toLowerCase (String.append a b) =
  String.append (toLowerCase a) (toLowerCase b).
Proof.
  induction a as [|c a IH]; [done|].
  rewrite append_cons. simpl. by rewrite IH.
Qed.

(** The colour of a section depends only on its lower-cased text: the
    leading [/epstein/] and a trailing slash, present or not, never
    change it. *)
Theorem section_color_ignores_path (raw : string) :
  getSectionColor raw = color_of_key (toLowerCase raw)
  ∧ getSectionColor (String.append "/epstein/" raw) = getSectionColor raw
  ∧ getSectionColor (String.append raw "/") = getSectionColor raw.
Proof.
  assert (∀ r, getSectionColor r = color_of_key (toLowerCase r)) as Hmain.
  { intros r. unfold getSectionColor.
    by rewrite color_of_key_strip_slash, color_of_key_strip_prefix. }
  split; [apply Hmain|]. rewrite !Hmain, !toLowerCase_app. split.
  - change (toLowerCase "/epstein/") with "/epstein/"%string.
    apply color_of_key_ext. intros key Hkey. by apply section_key_cases.
  - change (toLowerCase "/") with "/"%string.
    apply color_of_key_ext. intros key Hkey.
    apply includes_app_slash. by apply section_key_cases.
Qed.

(** ** [cleanSectionLabel] *)

Lemma occurs_app (c : ascii) (a b : string) :
  occurs c (String.append a b) ↔ occurs c a ∨ occurs c b.
Proof.
  induction a as [|d a IH].
  - rewrite append_nil. simpl. tauto.
  - rewrite append_cons. simpl. rewrite IH. tauto.
Qed.

Lemma split_sep_nonempty (s : string) : split_sep s ≠ [].
Proof.
  destruct s as [|c s]; [done|]. simpl.
  destruct (is_sep c); [done|]. by destruct (split_sep s).
Qed.

Lemma split_sep_no_sep (s w : string) (c : ascii) :
  is_sep c = true → w ∈ split_sep s → ¬ occurs c w.
Proof.
  intros Hc. revert w. induction s as [|d s IH]; intros w Hw.
  - simpl in Hw. apply list_elem_of_singleton in Hw as ->. simpl. tauto.
  - simpl in Hw. destruct (is_sep d) eqn:Hd.
    + apply elem_of_cons in Hw as [->|Hw]; [simpl; tauto|by apply IH].
    + destruct (split_sep s) as [|w0 ws] eqn:Hs.
      { by apply split_sep_nonempty in Hs. }
      apply elem_of_cons in Hw as [->|Hw].
      * simpl. intros [->|Ho]; [congruence|].
        revert Ho. apply IH. by left.
      * apply IH. by right.
Qed.

Lemma upper_ascii_not_sep (d : ascii) :
  is_sep (upper_ascii d) = true → is_sep d = true.
Proof.
  destruct d as [b0 b1 b2 b3 b4 b5 b6 b7].
  destruct b0, b1, b2, b3, b4, b5, b6, b7; vm_compute; done.
Qed.

Lemma capitalize_no_sep (w : string) (c : ascii) :
  is_sep c = true → ¬ occurs c w → ¬ occurs c (capitalize w).
Proof.
  intros Hc. destruct w as [|d w]; [done|]. simpl.
  intros Hno [->|Ho]; [|tauto].
  apply Hno. left. apply upper_ascii_not_sep in Hc.
  (* the first character was itself a separator *)
  destruct d as [b0 b1 b2 b3 b4 b5 b6 b7].
  destruct b0, b1, b2, b3, b4, b5, b6, b7; vm_compute in Hc |- *; done.
Qed.

Lemma join_space_no_sep (ws : list string) (c : ascii) :
  is_sep c = true → (∀ w, w ∈ ws → ¬ occurs c w) →
  ¬ occurs c (join_space ws).
Proof.
  intros Hc. induction ws as [|w ws IH]; intros Hall; [simpl; tauto|].
  destruct ws as [|w' ws].
  - simpl. apply Hall. by left.
  - change (join_space (w :: w' :: ws))
      with (String.append w (String " " (join_space (w' :: ws)))).
    rewrite occurs_app. simpl. intros [Ho|[->|Ho]].
    + revert Ho. apply Hall. by left.
    + done.
    + revert Ho. apply IH. intros w0 Hw0. apply Hall. by right.
Qed.

(** A cleaned section label is never empty and never contains one of
    the separators [-] and [_] that it splits on. *)
Theorem cleanSectionLabel_clean (raw : string) (c : ascii) :
  cleanSectionLabel raw ≠ EmptyString
  ∧ (is_sep c = true → ¬ occurs c (cleanSectionLabel raw)).
Proof.
  unfold cleanSectionLabel.
  set (ws := split_sep (replace_trailing_slash (replace_epstein_prefix raw))).
  destruct (bool_decide (join_space (capitalize <$> ws) = EmptyString)) eqn:Hj.
  - split; [done|]. intros Hc.
    apply orb_true_iff in Hc as [Hc|Hc]; apply Ascii.eqb_eq in Hc as ->;
      simpl; intuition discriminate.
  - apply bool_decide_eq_false in Hj. split; [done|]. intros Hc.
    apply join_space_no_sep; [done|]. intros w Hw.
    apply list_elem_of_fmap in Hw as (w0 & -> & Hw0).
    apply capitalize_no_sep; [done|]. by apply (split_sep_no_sep _ _ _ Hc Hw0).
Qed.

Lemma cleanSectionLabel_clean_witness :
  ¬ occurs "-" (cleanSectionLabel "/epstein/house-oversight/").
Proof.
  apply (proj2 (cleanSectionLabel_clean "/epstein/house-oversight/" "-")).
  reflexivity.
Defined.

(** ** Name quoting of [exportCSV] *)

Lemma csv_escape_cons (c : ascii) (s : string) :
  csv_escape (String c s) =
  if Ascii.eqb c dquote then String dquote (String dquote (csv_escape s))
  else String c (csv_escape s).
Proof. reflexivity. Qed.

(** Doubling the quotes of a name loses nothing: distinct names are
    written differently, and a name without quotes is written as it is. *)
Theorem csv_escape_injective :
  (∀ s1 s2, csv_escape s1 = csv_escape s2 → s1 = s2)
  ∧ (∀ s, ¬ occurs dquote s → csv_escape s = s).
Proof.
  split.
  - induction s1 as [|c1 s1 IH]; intros [|c2 s2] H.
    + done.
    + rewrite csv_escape_cons in H. simpl in H.
      destruct (Ascii.eqb c2 dquote); discriminate.
    + rewrite csv_escape_cons in H. simpl in H.
      destruct (Ascii.eqb c1 dquote); discriminate.
    + rewrite !csv_escape_cons in H.
      destruct (Ascii.eqb c1 dquote) eqn:H1, (Ascii.eqb c2 dquote) eqn:H2.
      * apply Ascii.eqb_eq in H1 as ->. apply Ascii.eqb_eq in H2 as ->.
        injection H as H. by rewrite (IH s2 H).
      * injection H as Hc _. subst c2.
        by rewrite Ascii.eqb_refl in H2.
      * injection H as Hc _. subst c1.
        by rewrite Ascii.eqb_refl in H1.
      * injection H as -> H. by rewrite (IH s2 H).
  - induction s as [|c s IH]; intros Hno; [done|].
    rewrite csv_escape_cons.
    destruct (Ascii.eqb c dquote) eqn:Hc.
    + apply Ascii.eqb_eq in Hc as ->. destruct Hno. by left.
    + rewrite IH; [done|]. intros Ho. apply Hno. by right.
Qed.

Lemma csv_escape_injective_witness :
  csv_escape "Doe, Jane" = "Doe, Jane"%string.
Proof.
  apply (proj2 csv_escape_injective "Doe, Jane"%string).
  vm_compute. intuition discriminate.
Defined.

End SectionsFacts.

(* ================================================================== *)
(** * Debouncing *)
(* ================================================================== *)

Section DebounceFacts.

Import Debounce.

Context {A : Type} `{EqDecision A}.

Implicit Types (s : State A) (v : A) (t : positive).

Lemma inv_mount v : inv (mount v).
Proof.
  split; simpl.
  - intros t w Ht. apply lookup_singleton_Some in Ht as [<- <-]. done.
  - intros t [= <-]. lia.
  - done.
Qed.

Lemma cleanup_empty s : inv s → cleanup s = ∅.
Proof.
  intros [Ht _ _]. apply map_eq. intros t. rewrite lookup_empty.
  unfold cleanup. destruct (current s) as [c|] eqn:Hc.
  - destruct (decide (t = c)) as [->|Hne]; [apply lookup_delete_eq|].
    rewrite lookup_delete_ne by done.
    destruct (timers s !! t) as [w|] eqn:Hw; [|done].
    destruct (Ht t w Hw) as [Hcur _]. congruence.
  - destruct (timers s !! t) as [w|] eqn:Hw; [|done].
    destruct (Ht t w Hw) as [Hcur _]. congruence.
Qed.

Lemma inv_set_value v s : inv s → inv (set_value v s).
Proof.
  intros Hs. unfold set_value. destruct (decide (v = value s)); [done|].
  rewrite (cleanup_empty s Hs). split; simpl.
  - intros t w Ht. apply lookup_insert_Some in Ht as [[<- <-]|[_ Ht]]; [done|].
    by rewrite lookup_empty in Ht.
  - intros t [= <-]. lia.
  - intros _. eexists. split; [done|]. apply lookup_insert_eq.
Qed.

Lemma timers_after_fire t v s :
  inv s → timers s !! t = Some v → delete t (timers s) = ∅.
Proof.
  intros [Ht _ _] Hv. apply map_eq. intros t'. rewrite lookup_empty.
  destruct (decide (t' = t)) as [->|Hne]; [apply lookup_delete_eq|].
  rewrite lookup_delete_ne by done.
  destruct (timers s !! t') as [w|] eqn:Hw; [|done].
  destruct (Ht t' w Hw) as [Hc' _]. destruct (Ht t v Hv) as [Hc _]. congruence.
Qed.

Lemma inv_timer_fires t s : inv s → inv (timer_fires t s).
Proof.
  intros Hs. unfold timer_fires.
  destruct (timers s !! t) as [v|] eqn:Hv; [|done].
  pose proof (timers_after_fire t v s Hs Hv) as Hempty.
  destruct Hs as [Ht Hf Hl]. destruct (Ht t v Hv) as [Hc ->].
  split; simpl.
  - intros t' w Hw. rewrite Hempty in Hw. by rewrite lookup_empty in Hw.
  - done.
  - done.
Qed.

Lemma inv_run (evs : list (Event A)) s : inv s → inv (run evs s).
Proof.
  revert s. induction evs as [|e evs IH]; intros s Hs; [done|].
  simpl. apply IH. destruct e; [by apply inv_set_value|by apply inv_timer_fires].
Qed.

Lemma inv_burst (vs : list A) s : inv s → inv (burst vs s).
Proof.
  revert s. induction vs as [|v vs IH]; intros s Hs; [done|].
  simpl. apply IH. by apply inv_set_value.
Qed.

Lemma burst_snoc (vs : list A) v s :
  burst (vs ++ [v]) s = set_value v (burst vs s).
Proof. unfold burst. by rewrite foldl_app. Qed.

Lemma burst_value (vs : list A) s :
  value (burst vs s) = default (value s) (last vs)
  ∧ debounced (burst vs s) = debounced s
  ∧ updates (burst vs s) = updates s.
Proof.
  induction vs as [|v vs IH] using rev_ind; [done|].
  rewrite burst_snoc, last_snoc. simpl. destruct IH as (Hv & Hd & Hu).
  unfold set_value. destruct (decide (v = value (burst vs s))) as [->|_]; done.
Qed.

(** Debouncing from the first render on: at most one timer is pending
    and it holds the latest value; a debounced value that lags behind
    always has such a timer; and after any burst of changes, when the
    pending timer runs, [setDebounced] is called once, with the last
    value of the burst, and no timer is left. *)
Theorem debounce_settles (v0 : A) (evs : list (Event A)) :
  let s := run evs (mount v0) in
  (∀ t v, timers s !! t = Some v → current s = Some t ∧ v = value s)
  ∧ (debounced s ≠ value s →
     ∃ t, current s = Some t ∧ timers s !! t = Some (value s))
  ∧ (∀ vs t,
       let s' := burst vs s in
       is_Some (timers s' !! t) →
       value s' = default (value s) (last vs)
       ∧ debounced (timer_fires t s') = value s'
       ∧ updates (timer_fires t s') = updates s ++ [value s']
       ∧ timers (timer_fires t s') = ∅).
Proof.
  intros s.
  assert (inv s) as Hs by apply inv_run, inv_mount.
  split; [apply (inv_timer s Hs)|]. split; [apply (inv_lag s Hs)|].
  intros vs t s' [v Hv].
  assert (inv s') as Hs' by (by apply inv_burst).
  destruct (burst_value vs s) as (Hval & _ & Hupd). fold s' in Hval, Hupd.
  destruct (inv_timer s' Hs' t v Hv) as [_ ->].
  split; [done|]. unfold timer_fires. rewrite Hv. simpl.
  split; [done|]. split; [by rewrite Hupd|]. by apply (timers_after_fire t (value s')).
Qed.

End DebounceFacts.

Section SliderFacts.

Import Debounce.

Lemma debounce_settles_witness :
  let s := burst [5; 7; 9] (mount 3) in
  debounced (timer_fires 4 s) = 9 ∧ updates (timer_fires 4 s) = [9].
Proof.
  intros s.
  destruct (debounce_settles 3 []) as (_ & _ & Hb).
  destruct (Hb [5; 7; 9] 4%positive) as (_ & Hd & Hu & _).
  - vm_compute. eauto.
  - split; [exact Hd|exact Hu].
Defined.

Lemma slider_reachable_inv (s : Slider) : slider_reachable s → inv (deb s).
Proof.
  induction 1 as [|v s _ IH|t s _ IH]; simpl.
  - apply inv_mount.
  - by apply inv_set_value.
  - by apply inv_timer_fires.
Qed.

Lemma slider_burst_spec (vs : list Z) (s : Slider) :
  deb (slider_burst vs s) = burst vs (deb s)
  ∧ loader (slider_burst vs s) = loader s.
Proof.
  revert s. induction vs as [|v vs IH]; intros s; [done|].
  simpl. destruct (IH (slider_change v s)) as [-> ->]. done.
Qed.

(** Moving the co-occurrence slider never issues a request by itself;
    after any burst of moves, the debounce timer issues one request when
    the value it delivers differs from the debounced one, and none
    otherwise. *)
Theorem slider_burst_one_request (s : Slider) (vs : list Z) (t : positive) :
  slider_reachable s →
  let s' := slider_burst vs s in
  Loader.runs (loader s') = Loader.runs (loader s)
  ∧ (is_Some (timers (deb s') !! t) →
     debounced (deb (slider_timer t s')) = default (value (deb s)) (last vs)
     ∧ Loader.runs (loader (slider_timer t s')) =
       if decide (default (value (deb s)) (last vs) = debounced (deb s))
       then Loader.runs (loader s)
       else S (Loader.runs (loader s))).
Proof.
  intros Hreach s'.
  destruct (slider_burst_spec vs s) as [Hdeb Hload]. fold s' in Hdeb, Hload.
  split; [by rewrite Hload|]. intros [v Hv].
  pose proof (slider_reachable_inv s Hreach) as Hinv.
  assert (inv (deb s')) as Hinv' by (rewrite Hdeb; by apply inv_burst).
  destruct (inv_timer _ Hinv' t v Hv) as [_ Hvv].
  destruct (burst_value vs (deb s)) as (Hval & Hd & _).
  rewrite <- Hdeb in Hval, Hd.
  assert (debounced (timer_fires t (deb s')) = v) as Hfire.
  { unfold timer_fires. by rewrite Hv. }
  unfold slider_timer. simpl. rewrite Hfire, Hvv, Hval, Hd, Hload.
  split; [done|]. by destruct (decide _).
Qed.

Lemma slider_burst_one_request_witness :
  Loader.runs (loader (slider_timer 4 (slider_burst [5; 7; 9] slider_mount)))
  = 2%nat.
Proof.
  destruct (slider_burst_one_request slider_mount [5; 7; 9] 4%positive
              slider_reach_mount) as [_ H].
  destruct H as [_ H].
  - vm_compute. eauto.
  - exact H.
Defined.

End SliderFacts.

(* ================================================================== *)
(** * Paging of the entity chart *)
(* ================================================================== *)

Section ChartFacts.

Import Graph Loader Chart.

Lemma take_add_drop {T} (n m : nat) (l : list T) :
  take n l ++ take m (drop n l) = take (n + m) l.
Proof.
  revert l. induction n as [|n IH]; intros l; [done|].
  destruct l as [|x l]; simpl.
  - by rewrite take_nil.
  - by rewrite IH.
Qed.

Lemma paged_first_page (table : list EntityMentionCount) (s : State) :
  loadingMore s = false → paged table PAGE_SIZE (first_page table s).
Proof.
  intros Hlm. unfold first_page, fetchData_start, fetchData_resolve,
    Loader.fetchData_resolve, range_query. simpl.
  destruct (decide _) as [Hne|_]; [by destruct Hne|]. simpl.
  unfold paged. simpl. split; [done|]. split; [|done].
  rewrite length_take, drop_0. apply bool_decide_ext. unfold PAGE_SIZE. lia.
Qed.

Lemma paged_load_next (table : list EntityMentionCount) (n : nat) (s : State) :
  paged table n s → paged table (n + PAGE_SIZE) (load_next table s).
Proof.
  intros (He & Hm & Ht & Hl). unfold load_next, loadMore_start.
  rewrite Hl, Hm. simpl.
  destruct (bool_decide (n < length table)%nat) eqn:Hn; simpl.
  - apply bool_decide_eq_true in Hn.
    unfold loadMore_resolve, range_query. simpl.
    destruct (decide _) as [Hne|_]; [by destruct Hne|]. simpl.
    unfold paged. simpl. rewrite He.
    assert (length (take n table) = n) as Hlen by (rewrite length_take; lia).
    rewrite Hlen, take_add_drop. split; [done|]. split; [|done].
    rewrite length_take, length_drop. apply bool_decide_ext.
    unfold PAGE_SIZE. lia.
  - apply bool_decide_eq_false in Hn.
    unfold paged. rewrite He, Hm, Ht, Hl.
    rewrite !take_ge by lia. split; [done|]. split; [|done].
    rewrite !bool_decide_eq_false_2 by lia. done.
Qed.

(** Infinite scroll over a fixed result set: after the first page and
    [k] further rounds, the chart holds exactly the first
    [100 * (k + 1)] rows, in order; it expects more rows exactly when
    some are left, so it ends with the whole result set and stops. *)
Theorem paging_loads_prefix (table : list EntityMentionCount) (s : State)
    (k : nat) :
  loadingMore s = false →
  let sk := Nat.iter k (load_next table) (first_page table s) in
  entities (chart sk) = take (PAGE_SIZE * S k) table
  ∧ hasMore (chart sk) = bool_decide (PAGE_SIZE * S k < length table)%nat
  ∧ totalCount (chart sk) = Z.of_nat (length table)
  ∧ loadingMore sk = false
  ∧ ((length table ≤ PAGE_SIZE * S k)%nat →
     entities (chart sk) = table ∧ load_next table sk = sk).
Proof.
  intros Hlm sk.
  assert (paged table (PAGE_SIZE * S k) sk) as Hp.
  { subst sk. induction k as [|k IH].
    - replace (PAGE_SIZE * 1)%nat with PAGE_SIZE by lia.
      by apply paged_first_page.
    - replace (PAGE_SIZE * S (S k))%nat with (PAGE_SIZE * S k + PAGE_SIZE)%nat
        by lia.
      rewrite Nat.iter_succ. by apply paged_load_next. }
  destruct Hp as (He & Hm & Ht & Hl).
  split; [done|]. split; [done|]. split; [done|]. split; [done|].
  intros Hall. split; [by rewrite He, take_ge|].
  unfold load_next, loadMore_start. rewrite Hl, Hm.
  by rewrite bool_decide_eq_false_2 by lia.
Qed.

Lemma paging_loads_prefix_witness :
  let table := [ent "A" 3; ent "B" 2; ent "C" 1] in
  entities (chart (Nat.iter 1 (load_next table) (first_page table init)))
  = table.
Proof.
  intros table.
  destruct (paging_loads_prefix table init 1) as (_ & _ & _ & _ & H).
  - reflexivity.
  - apply H. simpl. lia.
Defined.

(** A filter change while a [loadMore] is in flight: the late page is
    discarded, success or failure, but [loadingMore] is left set, so
    every later [loadMore] returns at once, also after the new first
    page has arrived. *)
Theorem superseded_loadMore_blocks (s s1 : State) (v offset : nat)
    (data data' : list EntityMentionCount) (count count' : Z) :
  loadMore_start s = Some (s1, (v, offset)) →
  let s2 := (fetchData_start s1).1 in
  let v2 := (fetchData_start s1).2 in
  let s3 := fetchData_resolve v2 data' count' s2 in
  loadMore_resolve v offset data count s2 = s2
  ∧ loadMore_reject v s2 = s2
  ∧ loadMore_resolve v offset data count s3 = s3
  ∧ loadMore_reject v s3 = s3
  ∧ entities (chart s3) = data'
  ∧ loadingMore s3 = true
  ∧ loadMore_start s2 = None
  ∧ loadMore_start s3 = None.
Proof.
  unfold loadMore_start.
  destruct (loadingMore s || negb (hasMore (chart s))) eqn:Hg; [done|].
  intros [= <- <- <-]. simpl.
  unfold loadMore_resolve, loadMore_reject, fetchData_resolve,
    Loader.fetchData_resolve. simpl.
  destruct (decide (S (filterVersion (chart s)) ≠ S (filterVersion (chart s))))
    as [Hne|_]; [by destruct Hne|]. simpl.
  repeat destruct (decide _); try lia; done.
Qed.

Lemma superseded_loadMore_blocks_witness :
  let s := first_page (ent "A" 1 :: replicate 200 (ent "B" 1)) init in
  ∃ s1 v offset,
    loadMore_start s = Some (s1, (v, offset)) ∧
    loadMore_start
      (fetchData_resolve (fetchData_start s1).2 [ent "C" 1] 1
         (fetchData_start s1).1) = None.
Proof.
  intros s.
  destruct (loadMore_start s) as [[s1 [v offset]]|] eqn:Hs; [|by vm_compute in Hs].
  exists s1, v, offset. split; [done|].
  by destruct (superseded_loadMore_blocks s s1 v offset [] [ent "C" 1] 0 1 Hs)
    as (_ & _ & _ & _ & _ & _ & _ & H).
Defined.

(** A [loadMore] begun while a refetch is in flight carries the new
    version but the row offset of the old list.  When the new first page
    arrives before the extra page, the chart ends with the new first page
    followed by the page that starts at the old offset.  When the extra
    page arrives first, it is appended to the old rows, and the new first
    page then replaces them all. *)
Theorem loadMore_during_refetch (table : list EntityMentionCount) (s : State) :
  loadingMore s = false →
  let s1 := (fetchData_start s).1 in
  let v := (fetchData_start s).2 in
  let old := length (entities (chart s)) in
  let s2 := {| chart := chart s1; loadingMore := true |} in
  let first := range_query table 0 PAGE_SIZE in
  let more := range_query table old PAGE_SIZE in
  loadMore_start s1 = Some (s2, (v, old))
  ∧ (let s3 := fetchData_resolve v first.1 first.2 s2 in
     let s4 := loadMore_resolve v old more.1 more.2 s3 in
     entities (chart s3) = take PAGE_SIZE table
     ∧ entities (chart s4) =
       take PAGE_SIZE table ++ take PAGE_SIZE (drop old table)
     ∧ loadingMore s4 = false)
  ∧ (let s3 := loadMore_resolve v old more.1 more.2 s2 in
     let s4 := fetchData_resolve v first.1 first.2 s3 in
     entities (chart s3) =
     entities (chart s) ++ take PAGE_SIZE (drop old table)
     ∧ entities (chart s4) = take PAGE_SIZE table
     ∧ loadingMore s4 = false).
Proof.
  intros Hlm s1 v old s2 first more.
  subst s1 v s2 first more. unfold loadMore_start. simpl. rewrite Hlm. simpl.
  split; [done|].
  unfold fetchData_resolve, Loader.fetchData_resolve, loadMore_resolve. simpl.
  destruct (decide (S (filterVersion (chart s)) ≠ S (filterVersion (chart s))))
    as [Hne|_]; [by destruct Hne|]. simpl.
  destruct (decide (S (filterVersion (chart s)) ≠ S (filterVersion (chart s))))
    as [Hne|_]; [by destruct Hne|]. simpl.
  rewrite drop_0. done.
Qed.

(** 180 rows Z are loaded; the filters change to a result of 150 rows A
    followed by 150 rows B, and a [loadMore] starts before the new first
    page is in.  First page first: the chart shows 100 rows A and then
    rows 180 to 279 of the new result, all B.  Extra page first: the
    chart shows the 100 rows A only. *)
Lemma loadMore_during_refetch_witness :
  let old_table := replicate 180 (ent "Z" 1) in
  let table := replicate 150 (ent "A" 1) ++ replicate 150 (ent "B" 1) in
  let s := load_next old_table (first_page old_table init) in
  let s1 := (fetchData_start s).1 in
  let v := (fetchData_start s).2 in
  let s2 := {| chart := chart s1; loadingMore := true |} in
  let first := range_query table 0 PAGE_SIZE in
  let more := range_query table 180 PAGE_SIZE in
  loadMore_start s1 = Some (s2, (v, 180%nat))
  ∧ entities (chart (loadMore_resolve v 180 more.1 more.2
                       (fetchData_resolve v first.1 first.2 s2)))
    = replicate 100 (ent "A" 1) ++ replicate 100 (ent "B" 1)
  ∧ entities (chart (fetchData_resolve v first.1 first.2
                       (loadMore_resolve v 180 more.1 more.2 s2)))
    = replicate 100 (ent "A" 1).
Proof.
  intros old_table table s s1 v s2 first more.
  assert (length (entities (chart s)) = 180%nat) as Hold by (vm_compute; done).
  assert (loadingMore s = false) as Hlm by (vm_compute; done).
  destruct (loadMore_during_refetch table s Hlm)
    as (Hstart & (_ & HA & _) & (_ & HB & _)).
  rewrite Hold in Hstart, HA, HB.
  split; [exact Hstart|]. split.
  - etrans; [exact HA|]. vm_compute. reflexivity.
  - etrans; [exact HB|]. vm_compute. reflexivity.
Defined.

End ChartFacts.

(* ================================================================== *)
(** * Document-type breakdown *)
(* ================================================================== *)

Section DocTypeFacts.

Import Graph DocType.

Example normalizeDocType_court :
  normalizeDocType "Court - Filing" = "court_filing"%string.
Proof. reflexivity. Qed.

Example normalizeDocType_unknown : normalizeDocType "Letter" = "other"%string.
Proof. reflexivity. Qed.

Lemma length_foldl_set_add (ids acc : list string) :
  (length (foldl (fun s i => set_add i s) acc ids) ≤ length acc + length ids)%nat.
Proof.
  revert acc. induction ids as [|i ids IH]; intros acc; simpl; [lia|].
  etrans; [apply IH|]. pose proof (length_set_add i acc). lia.
Qed.

Lemma NoDup_foldl_set_add (ids acc : list string) :
  NoDup acc → NoDup (foldl (fun s i => set_add i s) acc ids).
Proof.
  revert acc. induction ids as [|i ids IH]; intros acc Hacc; [done|].
  simpl. apply IH. by apply NoDup_set_add.
Qed.

Lemma initial_selection_alt (data : list EntityMentionCount) :
  initial_selection data =
  foldl (fun s i => set_add i s) [] (entity_id <$> take MAX_ENTITIES data).
Proof.
  unfold initial_selection. generalize (@nil string).
  induction (take MAX_ENTITIES data) as [|e l IH]; intros acc; [done|].
  simpl. apply IH.
Qed.

Lemma set_delete_absent (i : string) (s : list string) :
  i ∉ s → set_delete i s = s.
Proof.
  intros Hi. unfold set_delete. induction s as [|x s IH]; [done|].
  rewrite filter_cons. apply not_elem_of_cons in Hi as [Hne Hi].
  rewrite decide_True by done. by rewrite IH.
Qed.

Lemma set_delete_perm (i : string) (s : list string) :
  NoDup s → i ∈ s → s ≡ₚ i :: set_delete i s.
Proof.
  unfold set_delete. induction 1 as [|x s Hx Hnd IH]; intros Hi.
  { by apply elem_of_nil in Hi. }
  rewrite filter_cons. destruct (decide (x ≠ i)) as [Hne|Heq].
  - apply elem_of_cons in Hi as [->|Hi]; [done|].
    rewrite (IH Hi) at 1. apply Permutation_swap.
  - apply dec_stable in Heq as ->.
    fold (set_delete i s). by rewrite set_delete_absent.
Qed.

Lemma length_set_delete (i : string) (s : list string) :
  i ∈ s → (length (set_delete i s) < length s)%nat.
Proof. intros Hi. apply (length_filter_lt _ _ i); [done|]. by intros []. Qed.

(** The selection of entities never exceeds ten and never repeats an
    entity, whatever is toggled. *)
Theorem selection_capped (data : list EntityMentionCount) (s : list string) :
  selectable data s → NoDup s ∧ (length s ≤ MAX_ENTITIES)%nat.
Proof.
  induction 1 as [|i s _ [Hnd Hlen]].
  - rewrite initial_selection_alt. split.
    + apply NoDup_foldl_set_add, NoDup_nil_2.
    + etrans; [apply length_foldl_set_add|].
      rewrite length_fmap, length_take.
      change (length (@nil string)) with 0%nat. unfold MAX_ENTITIES. lia.
  - unfold toggleEntity. destruct (decide (i ∈ s)) as [Hi|Hi].
    + split; [by apply NoDup_filter|].
      etrans; [apply length_filter|done].
    + destruct (decide (length s < MAX_ENTITIES)%nat) as [Hlt|_]; [|done].
      split; [by apply NoDup_set_add|].
      pose proof (length_set_add i s). unfold MAX_ENTITIES in *. lia.
Qed.

Lemma selection_capped_witness :
  (length (toggleEntity "Z" (initial_selection [ent "A" 3; ent "B" 2]))
   ≤ MAX_ENTITIES)%nat.
Proof.
  apply (selection_capped [ent "A" 3; ent "B" 2]).
  apply sel_toggle, sel_initial.
Defined.

(** Toggling the same entity, or the same document type, twice gives
    back the same set; for an entity that was not selected, the very
    same list. *)
Theorem toggle_twice (i : string) (s : list string) :
  NoDup s → (length s ≤ MAX_ENTITIES)%nat →
  toggleEntity i (toggleEntity i s) ≡ₚ s
  ∧ (i ∉ s → toggleEntity i (toggleEntity i s) = s)
  ∧ toggleDocType i (toggleDocType i s) ≡ₚ s.
Proof.
  intros Hnd Hlen.
  assert (i ∉ set_delete i s) as Hgone.
  { intros H. apply list_elem_of_filter in H as [H _]. done. }
  assert (i ∈ s → set_add i (set_delete i s) ≡ₚ s) as Hback.
  { intros Hi. unfold set_add. rewrite decide_False by done.
    rewrite (set_delete_perm i s Hnd Hi) at 2.
    by rewrite Permutation_app_comm. }
  assert (i ∉ s → set_delete i (set_add i s) = s) as Hfwd.
  { intros Hi. unfold set_add. rewrite decide_False by done.
    unfold set_delete. rewrite filter_app, filter_cons, decide_False by auto.
    rewrite filter_nil, app_nil_r. by apply set_delete_absent. }
  assert (i ∉ s → i ∈ set_add i s) as Hin.
  { intros Hi. unfold set_add. rewrite decide_False by done.
    apply elem_of_app. right. by left. }
  assert (i ∉ s → toggleEntity i (toggleEntity i s) = s) as Hent.
  { intros Hi. unfold toggleEntity at 2. rewrite decide_False by done.
    destruct (decide (length s < MAX_ENTITIES)%nat) as [Hlt|Hge].
    - unfold toggleEntity. rewrite decide_True by auto. auto.
    - unfold toggleEntity. rewrite decide_False by done.
      by rewrite decide_False by done. }
  split; [|split; [done|]].
  - destruct (decide (i ∈ s)) as [Hi|Hi]; [|by rewrite Hent].
    unfold toggleEntity at 2. rewrite decide_True by done.
    unfold toggleEntity. rewrite decide_False by done.
    pose proof (length_set_delete i s Hi).
    rewrite decide_True by lia. auto.
  - unfold toggleDocType at 2. destruct (decide (i ∈ s)) as [Hi|Hi].
    + unfold toggleDocType. rewrite decide_False by done. auto.
    + unfold toggleDocType. rewrite decide_True by auto. by rewrite Hfwd.
Qed.

Lemma toggle_twice_witness :
  toggleEntity "C" (toggleEntity "C" ["A"; "B"]%string) = ["A"; "B"]%string.
Proof.
  apply (toggle_twice "C" ["A"; "B"]%string).
  - apply (bool_decide_unpack _). vm_compute. exact I.
  - simpl. unfold MAX_ENTITIES. lia.
  - intros H. repeat (apply elem_of_cons in H as [H|H]; [done|]).
    by apply elem_of_nil in H.
Defined.

Lemma known_cases (r : string) :
  r ∈ KNOWN_DOC_TYPES →
  normalizeDocType r = r ∧ is_Some (color_lookup r).
Proof.
  intros H. unfold KNOWN_DOC_TYPES in H. simpl in H.
  repeat (apply elem_of_cons in H as [->|H]; [split; [reflexivity|by eexists]|]).
  by apply elem_of_nil in H.
Qed.

Lemma normalizeDocType_known (dt : string) :
  normalizeDocType dt ∈ KNOWN_DOC_TYPES.
Proof.
  unfold normalizeDocType.
  destruct (bool_decide _) eqn:Hk.
  - by apply bool_decide_eq_true in Hk.
  - apply (bool_decide_unpack _). vm_compute. exact I.
Qed.

(** Normalising a document type always yields one of the seven known
    types, which has its own palette colour, and normalising again
    changes nothing. *)
Theorem normalizeDocType_idempotent (dt : string) :
  normalizeDocType dt ∈ KNOWN_DOC_TYPES
  ∧ normalizeDocType (normalizeDocType dt) = normalizeDocType dt
  ∧ color_lookup (normalizeDocType dt) = Some (getDocTypeColor (normalizeDocType dt)).
Proof.
  pose proof (normalizeDocType_known dt) as Hk.
  destruct (known_cases _ Hk) as [Hid [c Hc]].
  split; [done|]. split; [done|].
  unfold getDocTypeColor. by rewrite Hc.
Qed.

Lemma cell_group_step (g : Grouping) (m : Mention) (i dt : string) :
  cell (group_step g m) i dt =
  cell g i dt +
  (if bool_decide (m_entity_id m = i ∧ normalizeDocType (m_doc_type m) = dt)
   then 1 else 0).
Proof.
  unfold cell, group_step. simpl.
  destruct (decide (m_entity_id m = i)) as [<-|Hi].
  - rewrite lookup_insert_eq. simpl.
    destruct (decide (normalizeDocType (m_doc_type m) = dt)) as [<-|Hdt].
    + rewrite lookup_insert_eq. simpl. by rewrite bool_decide_eq_true_2.
    + rewrite lookup_insert_ne by done.
      rewrite bool_decide_eq_false_2 by tauto. lia.
  - rewrite lookup_insert_ne by done.
    rewrite bool_decide_eq_false_2 by tauto. lia.
Qed.

Lemma cell_foldl (ms : list Mention) (g : Grouping) (i dt : string) :
  cell (foldl group_step g ms) i dt = cell g i dt + count_mentions i dt ms.
Proof.
  revert g. unfold count_mentions.
  induction ms as [|m ms IH]; intros g; simpl; [lia|].
  rewrite IH, cell_group_step, filter_cons.
  destruct (decide (m_entity_id m = i ∧ normalizeDocType (m_doc_type m) = dt))
    as [Hm|Hm].
  - rewrite bool_decide_eq_true_2 by done. simpl length. lia.
  - rewrite bool_decide_eq_false_2 by done. lia.
Qed.

Lemma allTypes_foldl (ms : list Mention) (g : Grouping) (dt : string) :
  dt ∈ allTypes (foldl group_step g ms) ↔
  dt ∈ allTypes g ∨ ∃ m, m ∈ ms ∧ normalizeDocType (m_doc_type m) = dt.
Proof.
  revert g. induction ms as [|m ms IH]; intros g; simpl.
  - split; [auto|]. intros [?|(m & Hm & _)]; [done|]. by apply elem_of_nil in Hm.
  - rewrite IH. simpl. rewrite elem_of_set_add. split.
    + intros [[->|?]|(m' & Hm' & Hdt)]; auto.
      * right. exists m. split; [left|done].
      * right. exists m'. split; [by right|done].
    + intros [?|(m' & Hm' & Hdt)]; auto.
      apply elem_of_cons in Hm' as [->|Hm']; [auto|].
      right. eauto.
Qed.

Lemma NoDup_allTypes_foldl (ms : list Mention) (g : Grouping) :
  NoDup (allTypes g) → NoDup (allTypes (foldl group_step g ms)).
Proof.
  revert g. induction ms as [|m ms IH]; intros g Hg; [done|].
  simpl. apply IH. simpl. by apply NoDup_set_add.
Qed.

(** The grouping loop counts right: every chart cell is the number of
    fetched mentions of that entity with that normalized type; the
    series of the chart are exactly the normalized types that occur,
    each once, and all of them known types. *)
Theorem grouping_counts (mentions : list Mention) (i dt : string) :
  let g := group_mentions mentions in
  cell g i dt = count_mentions i dt mentions
  ∧ (dt ∈ allTypes g ↔
     ∃ m, m ∈ mentions ∧ normalizeDocType (m_doc_type m) = dt)
  ∧ NoDup (allTypes g)
  ∧ (dt ∈ allTypes g → dt ∈ KNOWN_DOC_TYPES).
Proof.
  intros g. subst g. unfold group_mentions.
  assert (dt ∈ allTypes (foldl group_step {| grouped := ∅; allTypes := [] |} mentions)
          ↔ ∃ m, m ∈ mentions ∧ normalizeDocType (m_doc_type m) = dt) as Hall.
  { rewrite allTypes_foldl. simpl. split; [|auto].
    intros [H|H]; [by apply elem_of_nil in H|done]. }
  split; [|split; [done|split]].
  - rewrite cell_foldl. unfold cell. simpl. rewrite lookup_empty. simpl.
    rewrite lookup_empty. simpl. lia.
  - apply NoDup_allTypes_foldl. simpl. apply NoDup_nil_2.
  - intros H. apply Hall in H as (m & _ & <-). apply normalizeDocType_known.
Qed.

Lemma grouping_counts_witness :
  let ms := [{| m_entity_id := "A"; m_doc_type := "E-Mail" |};
             {| m_entity_id := "A"; m_doc_type := "FBI Memo" |}] in
  "fbi_memo"%string ∈ KNOWN_DOC_TYPES.
Proof.
  intros ms.
  destruct (grouping_counts ms "A" "fbi_memo") as (_ & _ & _ & H).
  apply H. vm_compute. apply elem_of_cons. right. apply elem_of_cons. by left.
Defined.

End DocTypeFacts.

(* ================================================================== *)
(** * Related entities *)
(* ================================================================== *)

Section RelatedFacts.

Import Graph Related.

Section Sorting.

Context {T : Type} (key : T → Z).

Lemma insert_desc_perm (x : T) (l : list T) : insert_desc key x l ≡ₚ x :: l.
Proof.
  induction l as [|y l IH]; simpl; [done|].
  destruct (bool_decide _); [done|]. rewrite IH. apply Permutation_swap.
Qed.

Lemma sort_desc_cons (x : T) (l : list T) :
  sort_desc key (x :: l) = insert_desc key x (sort_desc key l).
Proof. reflexivity. Qed.

Lemma sort_desc_perm (l : list T) : sort_desc key l ≡ₚ l.
Proof.
  induction l as [|x l IH]; [done|].
  rewrite sort_desc_cons, insert_desc_perm. by rewrite IH.
Qed.

Lemma insert_desc_sorted (x : T) (l : list T) :
  Sorted (fun a b => key b ≤ key a) l →
  Sorted (fun a b => key b ≤ key a) (insert_desc key x l).
Proof.
  induction 1 as [|y l Hs IH Hhd]; simpl.
  - repeat constructor.
  - destruct (bool_decide (key y ≤ key x)) eqn:Hyx.
    + apply bool_decide_eq_true in Hyx. repeat constructor; done.
    + apply bool_decide_eq_false in Hyx. constructor; [done|].
      destruct Hhd as [|z l Hz]; simpl.
      * constructor. lia.
      * destruct (bool_decide (key z ≤ key x)); constructor; [lia|done].
Qed.

Lemma sort_desc_sorted (l : list T) :
  Sorted (fun a b => key b ≤ key a) (sort_desc key l).
Proof.
  induction l as [|x l IH]; [constructor|].
  rewrite sort_desc_cons. by apply insert_desc_sorted.
Qed.

End Sorting.

Lemma insert_desc_fmap {T U} (key1 : T → Z) (key2 : U → Z) (f : T → U)
    (x : T) (l : list T) :
  (∀ y, key2 (f y) = key1 y) →
  insert_desc key2 (f x) (f <$> l) = f <$> insert_desc key1 x l.
Proof.
  intros Hk. induction l as [|y l IH]; [done|].
  rewrite fmap_cons. simpl. rewrite !Hk.
  destruct (bool_decide _); [done|].
  rewrite fmap_cons. f_equal. exact IH.
Qed.

Lemma sort_desc_fmap {T U} (key1 : T → Z) (key2 : U → Z) (f : T → U)
    (l : list T) :
  (∀ x, key2 (f x) = key1 x) →
  sort_desc key2 (f <$> l) = f <$> sort_desc key1 l.
Proof.
  intros Hk. induction l as [|x l IH]; [done|].
  rewrite fmap_cons, !sort_desc_cons, IH. by apply insert_desc_fmap.
Qed.

Lemma related_step_alt (entityId : string) (acc : list CoEntity)
    (cm : CoMention) :
  related_step entityId acc cm =
  if decide (involves entityId cm) then acc ++ [other_end entityId cm]
  else acc.
Proof.
  unfold related_step, other_end, involves.
  repeat case_decide; try case_bool_decide; tauto || done.
Qed.

Lemma related_foldl (entityId : string) (data : list CoMention)
    (acc : list CoEntity) :
  foldl (related_step entityId) acc data =
  acc ++ (other_end entityId <$> filter (involves entityId) data).
Proof.
  revert acc. induction data as [|cm data IH]; intros acc; simpl.
  - by rewrite app_nil_r.
  - rewrite IH, filter_cons, related_step_alt.
    destruct (decide (involves entityId cm)); [|done].
    rewrite fmap_cons. by rewrite <- app_assoc.
Qed.

Lemma comparison_list_alt (entityId : string) (data : list CoMention) :
  comparison_list entityId data =
  take 15 (sort_desc coOccurrences
             (other_end entityId <$> filter (involves entityId) data)).
Proof. unfold comparison_list. by rewrite related_foldl. Qed.

Lemma coMentions_fallback_alt (entityId : string) (all : list CoMention) :
  coMentions_fallback entityId all =
  sort_desc co_occurrences
    (fallback_row entityId <$> filter (involves entityId) all).
Proof. reflexivity. Qed.

Lemma swap_filter_map {U} (entityId : string) (h : CoMention → U)
    (rows : list CoMention) :
  (∀ cm, involves entityId cm →
         ¬ (entity_a_id cm = entityId ∧ entity_b_id cm = entityId) →
         h (swap_pair cm) = h cm) →
  (∀ cm, cm ∈ rows →
         ¬ (entity_a_id cm = entityId ∧ entity_b_id cm = entityId)) →
  h <$> filter (involves entityId) (swap_pair <$> rows)
  = h <$> filter (involves entityId) rows.
Proof.
  intros Hh. induction rows as [|cm rows IH]; intros Hself; [done|].
  rewrite fmap_cons, !filter_cons.
  assert (involves entityId (swap_pair cm) ↔ involves entityId cm) as Hiff.
  { unfold involves. simpl. tauto. }
  assert (h <$> filter (involves entityId) (swap_pair <$> rows)
          = h <$> filter (involves entityId) rows) as IH'.
  { apply IH. intros c Hc. apply Hself. by right. }
  destruct (decide (involves entityId cm)) as [Hi|Hi].
  - rewrite decide_True by tauto. rewrite !fmap_cons, IH'. f_equal.
    apply Hh; [done|]. apply Hself. by left.
  - rewrite decide_False by tauto. exact IH'.
Qed.

(** The comparison card and the fallback of [getEntityCoMentions] compute
    the same related entities from the same pairs: the card shows the
    first 15 rows of the fallback list. *)
Theorem comparison_is_fallback_prefix (entityId : string)
    (rows : list CoMention) :
  comparison_list entityId rows =
  take 15 (as_CoEntity <$> coMentions_fallback entityId rows).
Proof.
  rewrite comparison_list_alt, coMentions_fallback_alt. f_equal.
  rewrite <- (sort_desc_fmap co_occurrences coOccurrences as_CoEntity) by done.
  f_equal. rewrite <- list_fmap_compose.
  apply list_fmap_ext. intros _ cm _. unfold other_end, fallback_row. simpl.
  by destruct (bool_decide (entity_a_id cm = entityId)).
Qed.

(** The related list is at most 15 long and ordered by decreasing
    co-occurrence count; each entry is the other end of a pair that
    involves the entity, with that pair's counts. *)
Theorem comparison_list_sorted (entityId : string) (rows : list CoMention) :
  let l := comparison_list entityId rows in
  (length l ≤ 15)%nat
  ∧ StronglySorted (fun a b => coOccurrences b ≤ coOccurrences a) l
  ∧ (∀ r, r ∈ l →
       ∃ cm, cm ∈ rows ∧
             coOccurrences r = co_occurrence_count cm ∧
             sharedDocs r = Graph.shared_documents cm ∧
             ((entity_a_id cm = entityId ∧ co_id r = entity_b_id cm) ∨
              (entity_b_id cm = entityId ∧ co_id r = entity_a_id cm))).
Proof.
  intros l. subst l. rewrite comparison_list_alt.
  set (pre := other_end entityId <$> filter (involves entityId) rows).
  split; [rewrite length_take; lia|]. split.
  - pose proof (sort_desc_sorted coOccurrences pre) as Hs.
    apply Sorted_StronglySorted in Hs.
    2:{ intros a b c Hab Hbc. lia. }
    revert Hs. generalize (sort_desc coOccurrences pre). generalize 15%nat.
    intros n l Hs. revert n.
    induction Hs as [|x l Hs IH Hall]; intros n.
    + rewrite take_nil. constructor.
    + destruct n as [|n]; [constructor|]. simpl. constructor; [apply IH|].
      apply Forall_forall. intros y Hy.
      rewrite Forall_forall in Hall. apply Hall.
      apply elem_of_take in Hy as (k & Hk & _).
      by apply list_elem_of_lookup_2 in Hk.
  - intros r Hr. apply elem_of_take in Hr as (k & Hk & _).
    apply list_elem_of_lookup_2 in Hk.
    rewrite (sort_desc_perm coOccurrences pre) in Hk.
    apply list_elem_of_fmap in Hk as (cm & -> & Hcm).
    apply list_elem_of_filter in Hcm as [Hinv Hcm].
    exists cm. split; [done|]. unfold other_end.
    destruct (bool_decide (entity_a_id cm = entityId)) eqn:Ha; simpl.
    + apply bool_decide_eq_true in Ha. auto.
    + apply bool_decide_eq_false in Ha. destruct Hinv as [?|Hb]; [done|]. auto.
Qed.

Lemma comparison_list_sorted_witness :
  ∃ cm, cm ∈ [pair "A" "B" 10 8] ∧ entity_b_id cm = "B"%string.
Proof.
  destruct (comparison_list_sorted "A" [pair "A" "B" 10 8]) as (_ & _ & H).
  destruct (H {| co_id := "B"; co_name := "B"; coOccurrences := 10;
                 sharedDocs := 8 |}) as (cm & Hcm & _ & _ & _).
  - vm_compute. apply elem_of_cons. by left.
  - assert (cm = pair "A" "B" 10 8) as ->.
    { apply elem_of_cons in Hcm as [->|Hcm]; [done|]. by apply elem_of_nil in Hcm. }
    exists (pair "A" "B" 10 8). split; [apply elem_of_cons; by left|done].
Defined.

(** Pairs are read without regard to orientation: writing every pair the
    other way round gives the same related lists, provided no pair joins
    the entity to itself. *)
Theorem related_orientation_free (entityId : string) (rows : list CoMention) :
  (∀ cm, cm ∈ rows →
         ¬ (entity_a_id cm = entityId ∧ entity_b_id cm = entityId)) →
  comparison_list entityId (swap_pair <$> rows) = comparison_list entityId rows
  ∧ coMentions_fallback entityId (swap_pair <$> rows)
    = coMentions_fallback entityId rows.
Proof.
  intros Hself. rewrite !comparison_list_alt, !coMentions_fallback_alt.
  split; f_equal; [f_equal|]; (apply swap_filter_map; [|done]);
    intros cm Hinv Hns.
  - unfold other_end. simpl.
    destruct (decide (entity_a_id cm = entityId)) as [Ha|Ha].
    + rewrite (bool_decide_eq_true_2 _ Ha).
      rewrite bool_decide_eq_false_2 by tauto. done.
    + rewrite (bool_decide_eq_false_2 _ Ha).
      destruct Hinv as [?|Hb]; [done|].
      rewrite bool_decide_eq_true_2 by done. done.
  - unfold fallback_row. simpl.
    destruct (decide (entity_a_id cm = entityId)) as [Ha|Ha].
    + rewrite (bool_decide_eq_true_2 _ Ha).
      rewrite bool_decide_eq_false_2 by tauto. done.
    + rewrite (bool_decide_eq_false_2 _ Ha).
      destruct Hinv as [?|Hb]; [done|].
      rewrite bool_decide_eq_true_2 by done. done.
Qed.

Lemma related_orientation_free_witness :
  comparison_list "A" (swap_pair <$> [pair "A" "B" 10 8; pair "C" "A" 4 2])
  = comparison_list "A" [pair "A" "B" 10 8; pair "C" "A" 4 2].
Proof.
  apply (related_orientation_free "A" [pair "A" "B" 10 8; pair "C" "A" 4 2]).
  intros cm Hcm [Ha Hb].
  repeat (apply elem_of_cons in Hcm as [->|Hcm]; [done|]).
  by apply elem_of_nil in Hcm.
Defined.

End RelatedFacts.

(* ================================================================== *)
(** * Further properties of the detail cache *)
(* ================================================================== *)

Section CacheExtras.

Import DetailCache.

(** One event leaves alone an identifier that is cached and has no
    fetch in flight. *)
Lemma cached_step (s : State) (i : string) (data : list SectionBreakdown)
    (e : Event) :
  breakdownCache s !! i = Some data → (∀ o, (o, i) ∉ inflight s) →
  breakdownCache (step s e) !! i = Some data
  ∧ fetch_count i (step s e) = fetch_count i s
  ∧ (∀ o, (o, i) ∉ inflight (step s e)).
Proof.
  intros Hi Hfl. destruct e as [r|o j res]; simpl.
  - assert (¬ needs_fetch s i) as Hn by (intros [Hnone _]; congruence).
    split; [by rewrite request_cache|]. split.
    + rewrite request_count, decide_False by done. lia.
    + intros o Hin. by apply (Hfl o), (request_inflight r).
  - destruct (decide ((o, j) ∈ inflight s)) as [Hin|_]; [|done].
    assert (i ≠ j) as Hne by (intros ->; by apply (Hfl o)).
    rewrite settle_eq. simpl. split; [|split; [done|]].
    + destruct res; [by rewrite lookup_insert_ne|done].
    + intros o' Hin'. apply (Hfl o').
      eapply elem_of_sublist; [exact Hin'|apply remove_first_sublist].
Qed.

(** Once an identifier is cached and no fetch for it is in flight, no
    later request or settlement replaces or drops its breakdown, and no
    later request fetches it again, whatever the visible windows list.
    In states reached through requests that list no identifier twice, a
    cached identifier never has a fetch in flight. *)
Theorem cached_breakdown_stable :
  (∀ (s : State) (i : string) (data : list SectionBreakdown)
     (evs : list Event),
     breakdownCache s !! i = Some data → (∀ o, (o, i) ∉ inflight s) →
     let s' := run evs s in
     breakdownCache s' !! i = Some data
     ∧ fetch_count i s' = fetch_count i s
     ∧ (∀ o, (o, i) ∉ inflight s'))
  ∧ (∀ (s : State) (i : string) (data : list SectionBreakdown),
       reachable_by lists_once s → breakdownCache s !! i = Some data →
       ∀ o, (o, i) ∉ inflight s).
Proof.
  split.
  - intros s i data evs. revert s.
    induction evs as [|e evs IH]; intros s Hi Hfl; [done|].
    destruct (cached_step s i data e Hi Hfl) as (Hi' & Hc' & Hfl').
    destruct (IH (step s e) Hi' Hfl') as (H1 & H2 & H3).
    simpl. split; [done|]. split; [|done]. by rewrite H2.
  - intros s i data Hreach Hi o Hin.
    pose proof (reachable_inv s Hreach) as [Hp _ Hu].
    assert (breakdownCache s !! i = None) as Hnone by (apply Hu, Hp; eauto).
    congruence.
Qed.

(** The window [A, B] is fetched and A arrives.  Then a window that
    lists A twice, the arrival of B and a hover on A leave the breakdown
    of A, and the number of fetches for A, as they were. *)
Lemma cached_breakdown_stable_witness :
  let d := [{| section := "court"; mention_count := 3 |}] in
  let d' := [{| section := "doj"; mention_count := 1 |}] in
  let s := settle Visible "A" (Some d)
             (request (RVisible ["A"; "B"]%string) init) in
  let s' := run [EvRequest (RVisible ["A"; "A"; "C"]%string);
                 EvSettle Visible "B" (Some d');
                 EvRequest (RHover "A")] s in
  breakdownCache s' !! "A"%string = Some d ∧ fetch_count "A" s' = 1%nat.
Proof.
  intros d d' s s'.
  assert (reachable_by lists_once s) as Hreach.
  { apply reach_settle.
    - apply reach_request; [apply reach_init|].
      apply (bool_decide_unpack _). vm_compute. exact I.
    - vm_compute. apply elem_of_cons. by left. }
  destruct cached_breakdown_stable as [Hstable Hquiet].
  destruct (Hstable s "A"%string d
              [EvRequest (RVisible ["A"; "A"; "C"]%string);
               EvSettle Visible "B" (Some d');
               EvRequest (RHover "A")] eq_refl
              (Hquiet s "A"%string d Hreach eq_refl)) as (Hc & Hn & _).
  split; [exact Hc|exact Hn].
Defined.

End CacheExtras.
